(** * Change-detection job pipeline: a shallow embedding and its properties

    The development follows the Python services of the repository:

    - [app/services/ml_service.py] and [backend/app/services/ml_service.py]
      (preprocessing, fallback inference, extraction of detections);
    - [app/services/validation_service.py] (flagging against protected zones);
    - [app/services/stac_service.py] (choice of the before/after imagery pair);
    - [app/services/job_service.py], [app/models/models.py] and
      [backend/app/services/worker_tasks.py] (persisted job state and the
      worker that drives one run);
    - [app/services/storage_service.py] (objects of the result bucket and
      their URLs);
    - [backend/app/api/v1/endpoints/jobs.py] and
      [app/services/queue_service.py] (the cancel endpoint and the queue).

    Conventions of the embedding.  Python floats are read as rationals ([Q]):
    comparisons are exact and NaN is not modelled.  The arithmetic is exact
    too, except for the mean that gives a detection its confidence: a change
    map is an array of doubles, and its mean is rounded as doubles are.  A
    Python
    [dict] with string keys is a [gmap string _].  Code that can raise returns
    a [result], the exception on the left.  Calls into numpy, skimage,
    rasterio, shapely and the STAC catalogue are either written out from the
    behaviour their documentation fixes or taken as section variables. *)

From Stdlib Require Import QArith Qabs Qround Qpower Lqa.
From stdpp Require Import gmap strings list sorting pretty.

Local Open Scope string_scope.
Local Open Scope list_scope.

(** ** Exceptions and results *)

Inductive exn : Type :=
| ValueError (msg : string)
| KeyError (key : string)
| TypeError (msg : string)
| AttributeError (msg : string)
| NameError (msg : string)
| ZeroDivisionError
| Exception (msg : string).

Definition result (A : Type) : Type := exn + A.

Definition ok {A} (a : A) : result A := inr a.
Definition raise {A} (e : exn) : result A := inl e.

Global Instance result_ret : MRet result := fun A a => inr a.
Global Instance result_bind : MBind result := fun A B k m =>
  match m with
  | inl e => inl e
  | inr a => k a
  end.

(** The [str(e)] of an exception, as the worker formats it. *)
Definition exn_str (e : exn) : string :=
  match e with
  | ValueError m | TypeError m | AttributeError m | NameError m | Exception m => m
  | KeyError k => "'" +:+ k +:+ "'"
  | ZeroDivisionError => "division by zero"
  end.

(** ** Rational helpers *)

Definition Qltb (x y : Q) : bool := negb (Qle_bool y x).

Lemma Qltb_lt x y : Qltb x y = true <-> (x < y)%Q.
Proof.
  unfold Qltb. rewrite negb_true_iff. split.
  - intros H. destruct (Qlt_le_dec x y) as [Hlt | Hle]; [exact Hlt |].
    apply Qle_bool_iff in Hle. congruence.
  - intros H. destruct (Qle_bool y x) eqn:E; [| reflexivity].
    apply Qle_bool_iff in E. exfalso. apply (Qlt_not_le _ _ H E).
Qed.

Lemma Qltb_ge x y : Qltb x y = false <-> (y <= x)%Q.
Proof.
  unfold Qltb. rewrite negb_false_iff. apply Qle_bool_iff.
Qed.

Definition Qclip (lo hi x : Q) : Q :=
  if Qltb x lo then lo else if Qltb hi x then hi else x.

(** ** Double-precision arithmetic

    A finite double is read as the rational it denotes.  An operation on
    doubles is the exact operation followed by rounding to the nearest
    double, ties to the even significand of 53 bits.  The exponent range is
    not bounded: overflow, subnormal numbers, infinities and NaN are not
    modelled. *)

Definition round_half_even (q : Q) : Z :=
  let f := Qfloor q in
  match (q - inject_Z f ?= 1 # 2)%Q with
  | Lt => f
  | Gt => (f + 1)%Z
  | Eq => if Z.even f then f else (f + 1)%Z
  end.

Definition pow2 (e : Z) : Q := (2 ^ e)%Q.

(** The exponent [e] of the last place of a positive [a]:
    [2^52 <= a / 2^e < 2^53]. *)
Definition ulp_exponent (a : Q) : Z :=
  let k := (Z.log2 (Qnum a) - Z.log2 (Zpos (Qden a)))%Z in
  if Qle_bool (pow2 k) a then (k - 52)%Z else (k - 53)%Z.

Definition round64 (q : Q) : Q :=
  if Qeq_bool q 0 then 0%Q
  else
    let a := Qabs q in
    let e := ulp_exponent a in
    let m := round_half_even (a / pow2 e) in
    Qred ((if Qle_bool 0 q then 1 else -1) * inject_Z m * pow2 e).

Definition fadd (x y : Q) : Q := round64 (x + y).
Definition fdiv (x y : Q) : Q := round64 (x / y).

(** numpy sums a contiguous array pairwise: fewer than eight values one after
    the other, up to 128 values in eight interleaved accumulators that are
    then added in pairs, the rest of the block one after the other, and a
    longer array as the sum of its two halves, the first cut to a multiple of
    eight. *)
Fixpoint accumulate (blocks : nat) (r a : list Q) : list Q * list Q :=
  match blocks with
  | O => (r, a)
  | S blocks' => accumulate blocks' (zip_with fadd r (take 8 a)) (drop 8 a)
  end.

Definition block_sum (a : list Q) : Q :=
  let '(r, rest) := accumulate (length a / 8 - 1) (take 8 a) (drop 8 a) in
  let r := fun j => nth j r 0%Q in
  let res := fadd (fadd (fadd (r 0%nat) (r 1%nat)) (fadd (r 2%nat) (r 3%nat)))
                  (fadd (fadd (r 4%nat) (r 5%nat)) (fadd (r 6%nat) (r 7%nat))) in
  fold_left fadd rest res.

Fixpoint pairwise_sum (fuel : nat) (a : list Q) : Q :=
  if (length a <? 8)%nat then fold_left fadd a 0%Q
  else if (length a <=? 128)%nat then block_sum a
  else
    match fuel with
    | O => 0%Q
    | S fuel' =>
        let n2 := (length a / 2)%nat in
        let n2 := (n2 - n2 mod 8)%nat in
        fadd (pairwise_sum fuel' (take n2 a)) (pairwise_sum fuel' (drop n2 a))
    end.

(** [np.mean] of a one-dimensional array of doubles: the pairwise sum, then
    one division by the count. *)
Definition np_mean (a : list Q) : Q :=
  fdiv (pairwise_sum (length a) a) (inject_Z (Z.of_nat (length a))).

(** The doubles nearest to 0.1, 0.2 and 0.7, and two sums that do not round
    to the sum of the reals. *)
Example round64_tenth : round64 0.1 = (3602879701896397 # 36028797018963968)%Q.
Proof. vm_compute. reflexivity. Qed.

Example fadd_tenth_fifth :
  fadd (round64 0.1) (round64 0.2) = (1351079888211149 # 4503599627370496)%Q.
Proof. vm_compute. reflexivity. Qed.

Example np_mean_three_tenths :
  np_mean (replicate 3 (round64 0.1)) = (7205759403792795 # 72057594037927936)%Q.
Proof. vm_compute. reflexivity. Qed.

(** *** Rounding is monotone *)



Lemma pow2_lt (a b : Z) : (a < b)%Z -> (pow2 a < pow2 b)%Q.
Proof. intros H. apply Qpower_lt_compat_l; [exact H | reflexivity]. Qed.
















(** *** Sums and means are monotone *)











(** ** Values stored in detection dictionaries *)

Section Values.
Context {geojson : Type}.

Inductive value : Type :=
| VBool (b : bool)
| VNum (q : Q)
| VStr (s : string)
| VStrs (l : list string)
| VGeom (g : geojson).
End Values.
Arguments value : clear implicits.

(** A raster is indexed [row, column]; a pixel is such an index. *)
Definition raster : Type := list (list Q).
Definition pixel : Type := nat * nat.

Module ML.

(** *** [preprocess_imagery]

    An [xr.DataArray] is kept as its shape, its values in row-major order and
    the [collection] attribute.  Concatenating two arrays of one shape along
    axis 0 appends the value lists and doubles the leading dimension. *)

(** [data.rio.resolution()] and [data.rio.transform()]. *)
Record georef : Type := GeoRef {
  resolution : Q * Q;
  transform : list Q
}.

Record DataArray : Type := {
  da_shape : list nat;
  da_values : list Q;
  da_collection : option string;
  da_rio : georef
}.

Record Tensor : Type := {
  tensor_shape : list nat;
  tensor_values : list Q
}.

(** Python's [needle in hay] on strings. *)
Fixpoint contains (needle hay : string) : bool :=
  String.prefix needle hay ||
  match hay with
  | EmptyString => false
  | String _ hay' => contains needle hay'
  end.

Definition shape_eqb (s1 s2 : list nat) : bool := bool_decide (s1 = s2).

Definition np_concatenate (shape : list nat) (a b : list Q)
  : result (list nat * list Q) :=
  match shape with
  | [] => raise (ValueError "zero-dimensional arrays cannot be concatenated")
  | d0 :: dims => ok ((d0 + d0)%nat :: dims, a ++ b)
  end.

Definition shape_error : exn :=
  ValueError "Before and after images must have the same shape".

Definition preprocess_imagery (before_data after_data : DataArray) : result Tensor :=
  if negb (shape_eqb (da_shape before_data) (da_shape after_data))
  then raise shape_error
  else
    let before_np := da_values before_data in
    let after_np := da_values after_data in
    let '(before_np, after_np) :=
      if contains "sentinel-2" (default "" (da_collection before_data))
      then (List.map (fun x => Qclip 0 1 (x / 10000)) before_np,
            List.map (fun x => Qclip 0 1 (x / 10000)) after_np)
      else (List.map (fun x => Qclip 0 1 ((x + 30) / 50)) before_np,
            List.map (fun x => Qclip 0 1 ((x + 30) / 50)) after_np) in
    '(shape, stacked) ← np_concatenate (da_shape before_data) before_np after_np;
    ok {| tensor_shape := 1%nat :: shape; tensor_values := stacked |}.

(** *** The fallback of [backend/app/services/ml_service.py]

    [np.random] is a generator whose state nothing in the repository seeds:
    it starts from whatever the operating system provides.  The state is
    modelled as a tape of raw samples and a cursor; every draw reads the
    sample under the cursor and advances it.  [randint low high] maps the
    sample into [low, high), [uniform a b] into [a, b), and [normal mu sigma]
    reads the sample as a standard normal deviate. *)

Record rng : Type := Rng {
  tape : nat -> Q;
  cursor : nat
}.

Definition next (g : rng) : Q * rng :=
  (tape g (cursor g), Rng (tape g) (S (cursor g))).

Definition randint (low high : Z) (g : rng) : result (Z * rng) :=
  if (high <=? low)%Z then raise (ValueError "low >= high")
  else let '(u, g') := next g in ok ((low + Qfloor u mod (high - low))%Z, g').

Definition uniform (a b : Q) (g : rng) : Q * rng :=
  let '(u, g') := next g in
  ((a + (b - a) * (u - inject_Z (Qfloor u)))%Q, g').

Fixpoint normal_row (mu sigma : Q) (n : nat) (g : rng) : list Q * rng :=
  match n with
  | O => ([], g)
  | S n' =>
      let '(z, g') := next g in
      let '(zs, g'') := normal_row mu sigma n' g' in
      ((mu + sigma * z)%Q :: zs, g'')
  end.

(** [np.random.normal(mu, sigma, (height, width))] *)
Fixpoint normal (mu sigma : Q) (height width : nat) (g : rng) : raster * rng :=
  match height with
  | O => ([], g)
  | S h' =>
      let '(row, g') := normal_row mu sigma width g in
      let '(rows, g'') := normal mu sigma h' width g' in
      (row :: rows, g'')
  end.

(** [height, width = before_data.shape[-2:]] *)
Definition last_two (shape : list nat) : result (nat * nat) :=
  match rev shape with
  | w :: h :: _ => ok (h, w)
  | _ => raise (ValueError "not enough values to unpack (expected 2)")
  end.

(** [change_map[y:y+size, x:x+size] = confidence], all bounds non-negative. *)
Definition fill_row (x size : nat) (confidence : Q) (row : list Q) : list Q :=
  imap (fun c v => if ((x <=? c) && (c <? x + size))%nat then confidence else v) row.

Definition fill_block (y x size : nat) (confidence : Q) (m : raster) : raster :=
  imap (fun r row =>
          if ((y <=? r) && (r <? y + size))%nat then fill_row x size confidence row
          else row) m.

(** The loop [for i in range(num_changes)]. *)
Fixpoint add_changes (num_changes height width : nat) (change_map : raster) (g : rng)
  : result (raster * rng) :=
  match num_changes with
  | O => ok (change_map, g)
  | S n =>
      '(size, g) ← randint 10 51 g;
      '(x, g) ← randint 0 (Z.of_nat width - size) g;
      '(y, g) ← randint 0 (Z.of_nat height - size) g;
      let '(confidence, g) := uniform 0.6 0.95 g in
      add_changes n height width
        (fill_block (Z.to_nat y) (Z.to_nat x) (Z.to_nat size) confidence change_map) g
  end.

Definition add_rasters (a b : raster) : raster :=
  zip_with (zip_with Qplus) a b.

Definition _simple_difference_detection (before_data after_data : DataArray) (g : rng)
  : result (raster * rng) :=
  '(height, width) ← last_two (da_shape before_data);
  let change_map := replicate height (replicate width 0%Q) in
  '(num_changes, g) ← randint 1 4 g;
  '(change_map, g) ← add_changes (Z.to_nat num_changes) height width change_map g;
  let '(noise, g) := normal 0 0.05 height width g in
  ok (List.map (List.map (Qclip 0 1)) (add_rasters change_map noise), g).

(** The methods of [MLService] in the backend file.  There the line
    [def _simple_difference_detection] starts in the first column, so that
    function belongs to the module and not to the class (and the two [def]s
    after it are local to it). *)
Definition MLService_methods : list string :=
  ["__init__"; "load_model"; "preprocess_imagery"; "run_inference";
   "postprocess_results"; "run_change_detection"].

(** [self.<name>] for a method: bound when the class defines it. *)
Definition getattr_method {A} (name : string) (method : A) : result A :=
  if bool_decide (name ∈ MLService_methods) then ok method
  else raise (AttributeError
    ("'MLService' object has no attribute '" +:+ name +:+ "'")).

(** *** [skimage.measure.label] on a binary mask

    The mask is kept as the list of its set pixels in raster-scan order.
    [label] is called with its defaults, that is full connectivity: in two
    dimensions a pixel touches its eight neighbours.  Labels are handed out
    in scan order of each component's first pixel. *)

Definition dist (a b : nat) : nat := (a - b) + (b - a).

Definition adjacent (p q : pixel) : bool :=
  (dist (fst p) (fst q) <=? 1)%nat && (dist (snd p) (snd q) <=? 1)%nat.

Definition touches (comp : list pixel) (q : pixel) : bool :=
  existsb (fun p => adjacent p q) comp.

(** Grow [comp] by the pixels of [rest] that touch it, until none does. *)
Fixpoint grow (fuel : nat) (comp rest : list pixel) : list pixel * list pixel :=
  match fuel with
  | O => (comp, rest)
  | S fuel' =>
      match List.partition (touches comp) rest with
      | ([], _) => (comp, rest)
      | (near, far) => grow fuel' (comp ++ near) far
      end
  end.

Fixpoint label_from (fuel : nat) (pixels : list pixel) : list (list pixel) :=
  match fuel, pixels with
  | S fuel', p :: rest =>
      let '(comp, rest') := grow (length rest) [p] rest in
      comp :: label_from fuel' rest'
  | _, _ => []
  end.

Definition label (mask : list pixel) : list (list pixel) :=
  label_from (length mask) mask.

(** *** The change map and its threshold *)

Definition pixel_value (change_map : raster) (p : pixel) : Q :=
  nth (snd p) (nth (fst p) change_map []) 0%Q.

Definition row_indices (r : nat) (row : list Q) : list pixel :=
  List.map (fun c => (r, c)) (seq 0 (length row)).

Fixpoint indices_from (r : nat) (m : raster) : list pixel :=
  match m with
  | [] => []
  | row :: rows => row_indices r row ++ indices_from (S r) rows
  end.

Definition indices (m : raster) : list pixel := indices_from 0 m.

(** [binary_mask = change_map > confidence_threshold] *)
Definition binary_mask (change_map : raster) (confidence_threshold : Q) : list pixel :=
  List.filter (fun p => Qltb confidence_threshold (pixel_value change_map p))
              (indices change_map).

(** *** [skimage.measure.regionprops]

    One region per label, in label order.  [region_coords] holds the pixels
    of the region in the order [grow] met them and [region_intensity] the
    values of the intensity image there.  [mean_intensity] is
    [np.mean(image_intensity[image])]: the boolean index lists the values in
    raster-scan order, and the mean is taken in doubles. *)

Record region : Type := Region {
  region_label : nat;
  region_coords : list pixel;
  region_intensity : list Q
}.

Definition region_area (rg : region) : nat := length (region_coords rg).

(** Raster-scan order: by row, then by column. *)
Definition scan_le (p q : pixel * Q) : Prop :=
  (fst (fst p) < fst (fst q))%nat \/
  (fst (fst p) = fst (fst q) /\ (snd (fst p) <= snd (fst q))%nat).

Global Instance scan_le_dec p q : Decision (scan_le p q).
Proof. unfold scan_le. apply _. Defined.

Definition scan_intensity (rg : region) : list Q :=
  List.map snd (merge_sort scan_le (zip (region_coords rg) (region_intensity rg))).

Definition mean_intensity (rg : region) : Q := np_mean (scan_intensity rg).

Fixpoint regions_from (lbl : nat) (change_map : raster) (comps : list (list pixel))
  : list region :=
  match comps with
  | [] => []
  | c :: cs =>
      Region lbl c (List.map (pixel_value change_map) c)
        :: regions_from (S lbl) change_map cs
  end.

Definition regionprops (labeled_mask : list (list pixel)) (intensity_image : raster)
  : list region :=
  regions_from 1 intensity_image labeled_mask.

(** *** [postprocess_results] *)

Section Postprocess.
Context {geojson : Type}.

(** [rasterio.features.shapes(mask.astype(np.uint8), transform=transform)]:
    the polygons of the connected regions of equal value of the mask image,
    each paired with that value.  The image is given by its shape and the
    pixels that are set. *)
Variable shapes : nat * nat -> list pixel -> list Q -> list (geojson * Z).

(** [Polygon(x[0]['coordinates'][0]).area] *)
Variable ring_area : geojson -> Q.

(** Python's [max(xs, key=f)]: the first element with the greatest key. *)
Fixpoint max_by {A} (f : A -> Q) (best : A) (xs : list A) : A :=
  match xs with
  | [] => best
  | x :: xs' => max_by f (if Qltb (f best) (f x) then x else best) xs'
  end.

Definition raster_shape (m : raster) : nat * nat :=
  (length m, length (hd [] m)).

Definition detection_of (g : geojson) (confidence_score area_sqm : Q)
  : gmap string (value geojson) :=
  <["geometry" := VGeom g]>
  (<["confidence_score" := VNum confidence_score]>
  (<["area_sqm" := VNum area_sqm]>
  (<["change_type" :=
       VStr (if Qltb 0.8 confidence_score then "new_construction" else "unknown")]>
  (<["flagged" := VBool false]>
  (<["flag_reasons" := VStrs []]> ∅))))).

(** One turn of the loop [for region in regions], [None] where the body
    runs into [continue]. *)
Definition region_detection (change_map : raster) (before_data : georef)
    (min_area_sqm : Q) (rg : region) : option (gmap string (value geojson)) :=
  let pixel_area := Qabs (fst (resolution before_data) * snd (resolution before_data)) in
  let area_sqm := (inject_Z (Z.of_nat (region_area rg)) * pixel_area)%Q in
  if Qltb area_sqm min_area_sqm then None
  else
    let confidence_score := mean_intensity rg in
    let polygons :=
      shapes (raster_shape change_map) (region_coords rg) (transform before_data) in
    match polygons with
    | [] => None
    | first :: others =>
        let largest_poly := max_by (fun x => ring_area (fst x)) first others in
        Some (detection_of (fst largest_poly) confidence_score area_sqm)
    end.

Definition extract_detections (change_map : raster) (before_data : georef)
    (confidence_threshold min_area_sqm : Q) : list (gmap string (value geojson)) :=
  let binary_mask := binary_mask change_map confidence_threshold in
  let labeled_mask := label binary_mask in
  let regions := regionprops labeled_mask change_map in
  omap (region_detection change_map before_data min_area_sqm) regions.

(** The dictionary [postprocess_results] returns, without the timestamp. *)
Record postprocess_output : Type := PostprocessOutput {
  out_change_map : raster;
  out_detections : list (gmap string (value geojson));
  out_total_detections : nat
}.

Definition postprocess_results (change_map : raster) (before_data : georef)
    (confidence_threshold min_area_sqm : Q) : postprocess_output :=
  let detections :=
    extract_detections change_map before_data confidence_threshold min_area_sqm in
  PostprocessOutput change_map detections (length detections).

(** *** [run_change_detection] of the backend file *)

Record MLService : Type := {
  model_loaded : bool;
  model : Tensor -> result raster
}.

Definition run_inference (self : MLService) (input_tensor : Tensor) : result raster :=
  if negb (model_loaded self)
  then raise (Exception "Model not loaded. Please load a model first.")
  else model self input_tensor.

Definition run_change_detection (self : MLService)
    (before_data after_data : DataArray) (confidence_threshold : Q) (g : rng)
  : result (postprocess_output * rng) :=
  input_tensor ← preprocess_imagery before_data after_data;
  '(change_map, g) ←
    (if model_loaded self
     then change_map ← run_inference self input_tensor; ok (change_map, g)
     else
       fallback ← getattr_method "_simple_difference_detection"
                    _simple_difference_detection;
       fallback before_data after_data g);
  ok (postprocess_results change_map (da_rio before_data) confidence_threshold 25, g).

End Postprocess.

(** The two quantities the loop computes for a region, named to state its
    properties: [pixel_area] and [area_sqm]. *)
Definition pixel_area (before_data : georef) : Q :=
  Qabs (fst (resolution before_data) * snd (resolution before_data)).

Definition area_sqm_of (before_data : georef) (rg : region) : Q :=
  (inject_Z (Z.of_nat (region_area rg)) * pixel_area before_data)%Q.

(** *** Connectedness, to state what [label] computes

    [reach S seed q]: [q] is reached from [seed] by steps between touching
    pixels of [S].  A component is connected when one of its pixels reaches
    all the others, and closed when no pixel of the mask outside it touches
    it. *)

Inductive reach (S : list pixel) (seed : pixel) : pixel -> Prop :=
| reach_seed : seed ∈ S -> reach S seed seed
| reach_step p q : reach S seed p -> q ∈ S -> adjacent p q = true -> reach S seed q.

Definition connected_in (S comp : list pixel) : Prop :=
  exists seed, seed ∈ comp /\ forall q, q ∈ comp -> reach S seed q.

Definition closed_in (S comp : list pixel) : Prop :=
  forall p q, p ∈ comp -> q ∈ S -> adjacent p q = true -> q ∈ comp.

(** *** A small instance

    One row of three pixels at 10 m resolution, the middle one weaker than
    its neighbours.  [demo_shapes] returns the set pixels of the mask as its
    single polygon and [demo_ring_area] counts them. *)

Definition demo_shapes (_ : nat * nat) (mask : list pixel) (_ : list Q)
  : list (list pixel * Z) := [(mask, 1%Z)].

Definition demo_ring_area (g : list pixel) : Q := inject_Z (Z.of_nat (length g)).

Definition demo_map : raster := [[0.9; 0.6; 0.9]]%Q.

Definition demo_georef : georef := GeoRef (10, -10)%Q [].

Definition demo_detections (t min_area_sqm : Q) : list (gmap string (value (list pixel))) :=
  extract_detections demo_shapes demo_ring_area demo_map demo_georef t min_area_sqm.

Definition demo_detection : gmap string (value (list pixel)) :=
  default ∅ (head (demo_detections 0.7 25)).

(** Two 12 x 12 four-band scenes of one shape, a third with one band less,
    and two generator states. *)
Definition demo_scene (bands : nat) (v : Q) : DataArray :=
  {| da_shape := [bands; 12; 12]%nat;
     da_values := replicate (bands * 144) v;
     da_collection := Some "sentinel-2-l2a";
     da_rio := demo_georef |}.

Definition tape_zero : nat -> Q := fun _ => 0%Q.
Definition tape_one : nat -> Q := fun _ => 1%Q.

(** *** Facts about [label] *)

Lemma partition_perm {A} (f : A -> bool) (l near far : list A) :
  List.partition f l = (near, far) -> near ++ far ≡ₚ l.
Proof.
  revert near far. induction l as [| a l IH]; intros near far H; simpl in H.
  - inversion H. reflexivity.
  - destruct (List.partition f l) as [n' f'] eqn:E.
    specialize (IH _ _ eq_refl).
    destruct (f a); inversion H; subst; simpl.
    + constructor. exact IH.
    + rewrite <- Permutation_middle. constructor. exact IH.
Qed.

Lemma grow_spec fuel comp rest comp' rest' :
  grow fuel comp rest = (comp', rest') ->
  (exists extra, comp' = comp ++ extra) /\ comp' ++ rest' ≡ₚ comp ++ rest.
Proof.
  revert comp rest. induction fuel as [| fuel IH]; intros comp rest H; simpl in H.
  - inversion H; subst. split; [exists []; by rewrite app_nil_r | reflexivity].
  - destruct (List.partition (touches comp) rest) as [near far] eqn:E.
    destruct near as [| n near].
    + inversion H; subst. split; [exists []; by rewrite app_nil_r | reflexivity].
    + apply IH in H. destruct H as [[extra ->] Hperm].
      apply partition_perm in E. split.
      * exists ((n :: near) ++ extra). by rewrite app_assoc.
      * rewrite Hperm, <- E, app_assoc. reflexivity.
Qed.

Lemma grow_rest_length fuel comp rest comp' rest' :
  grow fuel comp rest = (comp', rest') -> (length rest' <= length rest)%nat.
Proof.
  intros H. apply grow_spec in H. destruct H as [[extra ->] Hperm].
  apply Permutation_length in Hperm. rewrite !length_app in Hperm. lia.
Qed.

(** Every component is non-empty and made of pixels of the mask. *)
Lemma label_from_components fuel pixels :
  Forall (fun c => c <> [] /\ forall q, q ∈ c -> q ∈ pixels) (label_from fuel pixels).
Proof.
  revert pixels. induction fuel as [| fuel IH]; intros pixels; simpl.
  - destruct pixels; constructor.
  - destruct pixels as [| p rest]; [constructor |].
    destruct (grow (length rest) [p] rest) as [comp rest'] eqn:E.
    pose proof (grow_spec _ _ _ _ _ E) as [[extra ->] Hperm].
    constructor.
    + split; [discriminate |].
      intros q Hq. change (p :: rest) with ([p] ++ rest).
      rewrite <- Hperm. apply elem_of_app. by left.
    + eapply Forall_impl; [apply IH |].
      intros c [Hne Hsub]. split; [exact Hne |].
      intros q Hq. change (p :: rest) with ([p] ++ rest).
      rewrite <- Hperm. apply elem_of_app. right. by apply Hsub.
Qed.

(** With enough fuel the components partition the mask. *)
Lemma label_from_partition fuel pixels :
  (length pixels <= fuel)%nat -> concat (label_from fuel pixels) ≡ₚ pixels.
Proof.
  revert pixels. induction fuel as [| fuel IH]; intros pixels Hlen; simpl.
  - destruct pixels; [reflexivity | simpl in Hlen; lia].
  - destruct pixels as [| p rest]; [reflexivity |].
    destruct (grow (length rest) [p] rest) as [comp rest'] eqn:E.
    pose proof (grow_rest_length _ _ _ _ _ E) as Hle.
    pose proof (grow_spec _ _ _ _ _ E) as [_ Hperm].
    simpl in Hlen. simpl. rewrite IH by lia. exact Hperm.
Qed.

Lemma label_partition mask : concat (label mask) ≡ₚ mask.
Proof. apply label_from_partition. reflexivity. Qed.

Lemma binary_mask_above change_map t p :
  p ∈ binary_mask change_map t -> (t < pixel_value change_map p)%Q.
Proof.
  unfold binary_mask. rewrite list_elem_of_In, filter_In.
  intros [_ H]. by apply Qltb_lt.
Qed.

Lemma regions_from_elem lbl change_map comps rg :
  rg ∈ regions_from lbl change_map comps ->
  region_coords rg ∈ comps /\
  region_intensity rg = List.map (pixel_value change_map) (region_coords rg).
Proof.
  revert lbl. induction comps as [| c cs IH]; intros lbl H; simpl in H.
  - by apply elem_of_nil in H.
  - apply elem_of_cons in H. destruct H as [-> | H].
    + split; [left | reflexivity].
    + apply IH in H. destruct H as [H1 H2]. split; [by right | exact H2].
Qed.

(** A region of the thresholded map is non-empty and every one of its
    intensities exceeds the threshold. *)
Lemma region_intensity_above change_map t rg :
  rg ∈ regionprops (label (binary_mask change_map t)) change_map ->
  region_coords rg <> [] /\ Forall (fun v => (t < v)%Q) (region_intensity rg).
Proof.
  intros H. apply regions_from_elem in H. destruct H as [Hc Hi].
  pose proof (label_from_components (length (binary_mask change_map t))
                (binary_mask change_map t)) as HF.
  rewrite Forall_forall in HF. destruct (HF _ Hc) as [Hne Hsub].
  split; [exact Hne |]. rewrite Hi. apply Forall_forall.
  intros v Hv. apply list_elem_of_In, in_map_iff in Hv.
  destruct Hv as [q [<- Hq]]. apply binary_mask_above, Hsub.
  by apply list_elem_of_In.
Qed.

Lemma adjacent_sym p q : adjacent p q = adjacent q p.
Proof.
  unfold adjacent, dist. f_equal; f_equal; lia.
Qed.

Lemma touches_true comp q :
  touches comp q = true <-> exists p, p ∈ comp /\ adjacent p q = true.
Proof.
  unfold touches. rewrite existsb_exists.
  split; intros [p [Hp Ha]]; exists p; split; auto; by apply list_elem_of_In.
Qed.

Lemma touches_false comp q :
  touches comp q = false <-> forall p, p ∈ comp -> adjacent p q = false.
Proof.
  split.
  - intros H p Hp. destruct (adjacent p q) eqn:E; [| reflexivity].
    assert (touches comp q = true) by (apply touches_true; eauto). congruence.
  - intros H. destruct (touches comp q) eqn:E; [| reflexivity].
    apply touches_true in E. destruct E as [p [Hp Ha]].
    rewrite (H p Hp) in Ha. discriminate.
Qed.

Lemma partition_near_far {A} (f : A -> bool) (l near far : list A) :
  List.partition f l = (near, far) ->
  (forall x, x ∈ near -> f x = true) /\ (forall x, x ∈ far -> f x = false /\ x ∈ l)
  /\ (forall x, x ∈ near -> x ∈ l).
Proof.
  rewrite partition_as_filter. intros [= <- <-].
  split; [| split]; intros x Hx; apply list_elem_of_In, filter_In in Hx;
    destruct Hx as [Hl Hf]; rewrite ?list_elem_of_In.
  - exact Hf.
  - split; [by apply negb_true_iff | exact Hl].
  - exact Hl.
Qed.

(** When [grow] stops with fuel to spare, nothing left touches the component. *)
Lemma grow_closed fuel comp rest comp' rest' :
  (length rest <= fuel)%nat ->
  grow fuel comp rest = (comp', rest') ->
  forall q, q ∈ rest' -> touches comp' q = false.
Proof.
  revert comp rest. induction fuel as [| fuel IH]; intros comp rest Hlen H q Hq; simpl in H.
  - destruct rest; [| simpl in Hlen; lia].
    inversion H; subst. by apply elem_of_nil in Hq.
  - destruct (List.partition (touches comp) rest) as [near far] eqn:E.
    pose proof (partition_near_far _ _ _ _ E) as (Hnear & Hfar & _).
    destruct near as [| n near].
    + inversion H; subst.
      apply partition_perm in E. simpl in E.
      rewrite <- E in Hq. by apply Hfar.
    + apply partition_length in E. simpl in E.
      eapply IH; [| exact H | exact Hq]. lia.
Qed.

(** Every pixel [grow] adds is reached from the seed through the mask. *)
Lemma grow_reach S seed fuel comp rest comp' rest' :
  (forall q, q ∈ comp -> reach S seed q) ->
  (forall q, q ∈ rest -> q ∈ S) ->
  grow fuel comp rest = (comp', rest') ->
  forall q, q ∈ comp' -> reach S seed q.
Proof.
  revert comp rest. induction fuel as [| fuel IH]; intros comp rest Hc Hr H; simpl in H.
  - by inversion H; subst.
  - destruct (List.partition (touches comp) rest) as [near far] eqn:E.
    pose proof (partition_near_far _ _ _ _ E) as (Hnear & Hfar & Hin).
    destruct near as [| n near]; [by inversion H; subst |].
    eapply IH; [| | exact H].
    + intros q Hq. apply elem_of_app in Hq. destruct Hq as [Hq | Hq]; [by apply Hc |].
      pose proof (Hnear _ Hq) as Ht. apply touches_true in Ht.
      destruct Ht as [p [Hp Ha]].
      eapply reach_step; [apply Hc, Hp | apply Hr, Hin, Hq | exact Ha].
    + intros q Hq. apply Hr. by apply Hfar.
Qed.

Lemma label_from_connected S fuel pixels :
  (forall q, q ∈ pixels -> q ∈ S) ->
  Forall (connected_in S) (label_from fuel pixels).
Proof.
  revert pixels. induction fuel as [| fuel IH]; intros pixels Hsub; simpl.
  - destruct pixels; constructor.
  - destruct pixels as [| p rest]; [constructor |].
    destruct (grow (length rest) [p] rest) as [comp rest'] eqn:E.
    pose proof (grow_spec _ _ _ _ _ E) as [[extra ->] Hperm].
    constructor.
    + exists p. split; [by left |].
      eapply grow_reach; [| | exact E].
      * intros q Hq. apply list_elem_of_singleton in Hq. subst q.
        apply reach_seed, Hsub. by left.
      * intros q Hq. apply Hsub. by right.
    + apply IH. intros q Hq. apply Hsub.
      change (p :: rest) with ([p] ++ rest). rewrite <- Hperm.
      apply elem_of_app. by right.
Qed.

Lemma label_from_closed S fuel pixels :
  (length pixels <= fuel)%nat ->
  (forall q, q ∈ pixels -> q ∈ S) ->
  (forall q p, q ∈ S -> q ∉ pixels -> p ∈ pixels -> adjacent q p = false) ->
  Forall (closed_in S) (label_from fuel pixels).
Proof.
  revert pixels. induction fuel as [| fuel IH]; intros pixels Hlen Hsub Hsep; simpl.
  - destruct pixels; constructor.
  - destruct pixels as [| p rest]; [constructor |].
    destruct (grow (length rest) [p] rest) as [comp rest'] eqn:E.
    pose proof (grow_spec _ _ _ _ _ E) as [_ Hperm].
    pose proof (grow_rest_length _ _ _ _ _ E) as Hle.
    pose proof (grow_closed _ _ _ _ _ (Nat.le_refl _) E) as Hcl.
    assert (Hmem : forall q, q ∈ p :: rest <-> q ∈ comp \/ q ∈ rest').
    { intros q. change (p :: rest) with ([p] ++ rest).
      rewrite <- Hperm. apply elem_of_app. }
    simpl in Hlen. constructor.
    + intros a q Ha Hq Hadj.
      destruct (decide (q ∈ p :: rest)) as [Hin | Hout].
      * apply Hmem in Hin. destruct Hin as [Hin | Hin]; [exact Hin |].
        apply Hcl in Hin. rewrite touches_false in Hin.
        rewrite (Hin a Ha) in Hadj. discriminate.
      * rewrite adjacent_sym in Hadj.
        rewrite (Hsep q a Hq Hout) in Hadj; [discriminate |].
        apply Hmem. by left.
    + apply IH; [lia | |].
      * intros q Hq. apply Hsub, Hmem. by right.
      * intros q b Hq Hout Hb.
        destruct (decide (q ∈ p :: rest)) as [Hin | Hout'].
        -- apply Hmem in Hin. destruct Hin as [Hin | Hin]; [| contradiction].
           apply Hcl in Hb. rewrite touches_false in Hb. by apply Hb.
        -- apply Hsep; [exact Hq | exact Hout' |]. apply Hmem. by right.
Qed.

Lemma label_closed mask : Forall (closed_in mask) (label mask).
Proof.
  apply label_from_closed; [reflexivity | auto |].
  intros q p Hq Hout. contradiction.
Qed.

Lemma label_connected mask : Forall (connected_in mask) (label mask).
Proof. apply label_from_connected. auto. Qed.

Lemma label_covers mask p : p ∈ mask -> exists c, c ∈ label mask /\ p ∈ c.
Proof.
  intros Hp. rewrite <- (label_partition mask) in Hp.
  apply list_elem_of_In, in_concat in Hp. destruct Hp as [c [H1 H2]].
  exists c. by rewrite !list_elem_of_In.
Qed.

Lemma reach_mono S S' seed q :
  (forall x, x ∈ S -> x ∈ S') -> reach S seed q -> reach S' seed q.
Proof.
  intros Hsub. induction 1.
  - apply reach_seed. auto.
  - eapply reach_step; eauto.
Qed.

Lemma closed_reach S comp seed q :
  closed_in S comp -> seed ∈ comp -> reach S seed q -> q ∈ comp.
Proof.
  intros Hcl Hseed. induction 1; [exact Hseed |].
  eapply Hcl; eauto.
Qed.

(** Components of a mask lie inside components of any larger mask. *)
Lemma label_mono mask mask' c :
  (forall x, x ∈ mask -> x ∈ mask') ->
  c ∈ label mask ->
  exists c', c' ∈ label mask' /\ forall q, q ∈ c -> q ∈ c'.
Proof.
  intros Hsub Hc.
  pose proof (label_connected mask) as Hconn. rewrite Forall_forall in Hconn.
  destruct (Hconn _ Hc) as [seed [Hseed Hreach]].
  pose proof (label_from_components (length mask) mask) as Hcomp.
  rewrite Forall_forall in Hcomp. destruct (Hcomp _ Hc) as [_ Hin].
  destruct (label_covers mask' seed) as [c' [Hc' Hs']]; [by apply Hsub, Hin |].
  exists c'. split; [exact Hc' |].
  pose proof (label_closed mask') as Hcl. rewrite Forall_forall in Hcl.
  intros q Hq. eapply closed_reach; [apply Hcl, Hc' | exact Hs' |].
  eapply reach_mono; [exact Hsub | by apply Hreach].
Qed.

Lemma indices_from_fst r m p : p ∈ indices_from r m -> (r <= fst p)%nat.
Proof.
  revert r. induction m as [| row rows IH]; intros r H; simpl in H.
  - by apply elem_of_nil in H.
  - apply elem_of_app in H. destruct H as [H | H].
    + unfold row_indices in H. apply list_elem_of_In, in_map_iff in H.
      destruct H as [c [<- _]]. simpl. lia.
    + apply IH in H. lia.
Qed.

Lemma NoDup_indices_from r m : NoDup (indices_from r m).
Proof.
  revert r. induction m as [| row rows IH]; intros r; simpl; [constructor |].
  apply NoDup_app. split; [| split].
  - unfold row_indices. apply (NoDup_fmap_2 (fun c : nat => (r, c)));
      try apply NoDup_seq; try (intros c c' E; congruence).
  - intros p Hp Hp'. apply indices_from_fst in Hp'.
    unfold row_indices in Hp. apply list_elem_of_In, in_map_iff in Hp.
    destruct Hp as [c [<- _]]. simpl in Hp'. lia.
  - apply IH.
Qed.

Lemma NoDup_binary_mask change_map t : NoDup (binary_mask change_map t).
Proof.
  unfold binary_mask.
  apply NoDup_ListNoDup, List.NoDup_filter, NoDup_ListNoDup, NoDup_indices_from.
Qed.

Lemma NoDup_concat_elem {A} (ls : list (list A)) c :
  NoDup (concat ls) -> c ∈ ls -> NoDup c.
Proof.
  induction ls as [| l ls IH]; intros Hnd Hc; simpl in Hnd.
  - by apply elem_of_nil in Hc.
  - apply NoDup_app in Hnd. destruct Hnd as (Hl & _ & Hls).
    apply elem_of_cons in Hc. destruct Hc as [-> | Hc]; auto.
Qed.

Lemma label_NoDup mask c : NoDup mask -> c ∈ label mask -> NoDup c.
Proof.
  intros Hnd. apply NoDup_concat_elem. by rewrite label_partition.
Qed.

Lemma binary_mask_mono change_map t1 t2 p :
  (t1 <= t2)%Q -> p ∈ binary_mask change_map t2 -> p ∈ binary_mask change_map t1.
Proof.
  unfold binary_mask. rewrite !list_elem_of_In, !filter_In.
  intros Hle [Hin Hlt]. split; [exact Hin |].
  apply Qltb_lt. apply Qltb_lt in Hlt. lra.
Qed.

Lemma regions_from_coords lbl change_map comps c :
  c ∈ comps -> exists rg, rg ∈ regions_from lbl change_map comps /\ region_coords rg = c.
Proof.
  revert lbl. induction comps as [| c' cs IH]; intros lbl H.
  - by apply elem_of_nil in H.
  - apply elem_of_cons in H. destruct H as [-> | H]; simpl.
    + eexists. split; [left | reflexivity].
    + destruct (IH (S lbl) H) as [rg [Hrg Hc]]. exists rg. split; [by right | exact Hc].
Qed.

(** Regions found at a threshold lie inside regions found at any lower one. *)
Lemma regions_mono change_map t1 t2 rg2 :
  (t1 <= t2)%Q ->
  rg2 ∈ regionprops (label (binary_mask change_map t2)) change_map ->
  exists rg1,
    rg1 ∈ regionprops (label (binary_mask change_map t1)) change_map /\
    (forall q, q ∈ region_coords rg2 -> q ∈ region_coords rg1) /\
    (region_area rg2 <= region_area rg1)%nat.
Proof.
  intros Hle Hrg2. apply regions_from_elem in Hrg2. destruct Hrg2 as [Hc2 _].
  destruct (label_mono (binary_mask change_map t2) (binary_mask change_map t1)
              (region_coords rg2)) as [c1 [Hc1 Hsub]]; [| exact Hc2 |].
  { intros x. by apply binary_mask_mono. }
  destruct (regions_from_coords 1 change_map _ _ Hc1) as [rg1 [Hrg1 E]].
  exists rg1. split; [exact Hrg1 |]. rewrite E. split; [exact Hsub |].
  unfold region_area. rewrite E. apply submseteq_length, NoDup_submseteq; [| exact Hsub].
  eapply label_NoDup; [apply NoDup_binary_mask | exact Hc2].
Qed.

Section PostprocessFacts.
Context {geojson : Type}.
Variable shapes : nat * nat -> list pixel -> list Q -> list (geojson * Z).
Variable ring_area : geojson -> Q.

Lemma region_detection_some change_map before_data min_area_sqm rg d :
  region_detection shapes ring_area change_map before_data min_area_sqm rg = Some d ->
  (min_area_sqm <= area_sqm_of before_data rg)%Q /\
  d !! "area_sqm" = Some (VNum (area_sqm_of before_data rg)) /\
  d !! "confidence_score" = Some (VNum (mean_intensity rg)) /\
  d !! "flagged" = Some (VBool false) /\
  d !! "flag_reasons" = Some (VStrs []).
Proof.
  unfold region_detection. fold (pixel_area before_data).
  fold (area_sqm_of before_data rg).
  destruct (Qltb (area_sqm_of before_data rg) min_area_sqm) eqn:E; [discriminate |].
  destruct (shapes _ _ _) as [| first others]; [discriminate |].
  intros [= <-]. split; [by apply Qltb_ge |].
  unfold detection_of. repeat split; by simplify_map_eq.
Qed.

Lemma region_detection_small change_map before_data min_area_sqm rg :
  (area_sqm_of before_data rg < min_area_sqm)%Q ->
  region_detection shapes ring_area change_map before_data min_area_sqm rg = None.
Proof.
  intros H. unfold region_detection. fold (pixel_area before_data).
  fold (area_sqm_of before_data rg).
  apply Qltb_lt in H. by rewrite H.
Qed.

Lemma extract_detections_elem change_map before_data t min_area_sqm d :
  d ∈ extract_detections shapes ring_area change_map before_data t min_area_sqm ->
  exists rg,
    rg ∈ regionprops (label (binary_mask change_map t)) change_map /\
    region_detection shapes ring_area change_map before_data min_area_sqm rg = Some d.
Proof.
  unfold extract_detections. intros H. by apply list_elem_of_omap in H.
Qed.

End PostprocessFacts.

(** *** Properties of the extractor *)

(** C6.  Every detection the extractor returns comes from a region whose
    pixel count times pixel area is at least [min_area_sqm], and carries that
    product as its [area_sqm]; a region below [min_area_sqm] yields no
    detection. *)
Theorem extract_area_at_least_min {geojson : Type}
    (shapes : nat * nat -> list pixel -> list Q -> list (geojson * Z))
    (ring_area : geojson -> Q)
    (change_map : raster) (before_data : georef) (t min_area_sqm : Q)
    (d : gmap string (value geojson)) :
  d ∈ extract_detections shapes ring_area change_map before_data t min_area_sqm ->
  (exists rg,
     rg ∈ regionprops (label (binary_mask change_map t)) change_map /\
     d !! "area_sqm" = Some (VNum (area_sqm_of before_data rg)) /\
     (min_area_sqm <= area_sqm_of before_data rg)%Q) /\
  (forall rg,
     (area_sqm_of before_data rg < min_area_sqm)%Q ->
     region_detection shapes ring_area change_map before_data min_area_sqm rg = None).
Proof.
  intros Hd. split.
  - apply extract_detections_elem in Hd. destruct Hd as [rg [Hrg Hsome]].
    apply region_detection_some in Hsome. destruct Hsome as (Hmin & Harea & _).
    exists rg. auto.
  - intros rg. apply region_detection_small.
Qed.

Lemma extract_area_at_least_min_witness :
  (exists rg,
     rg ∈ regionprops (label (binary_mask demo_map 0.7)) demo_map /\
     demo_detection !! "area_sqm" = Some (VNum (area_sqm_of demo_georef rg)) /\
     (25 <= area_sqm_of demo_georef rg)%Q) /\
  (forall rg,
     (area_sqm_of demo_georef rg < 25)%Q ->
     region_detection demo_shapes demo_ring_area demo_map demo_georef 25 rg = None).
Proof.
  apply (extract_area_at_least_min demo_shapes demo_ring_area demo_map demo_georef
           0.7 25 demo_detection).
  vm_compute. left.
Defined.


(** *** The change maps of C9

    A row of three pixels that all hold the double 0.7, with the double just
    below it, 0.6999999999999998, as threshold; and a row of seven pixels
    that all hold the double 0.4617629022454868, again with the double just
    below it as threshold. *)








(** C5, as stated, fails.  On the row [0.9; 0.6; 0.9] the threshold 0.7
    leaves two separate pixels, hence two detections; the lower threshold 0.5
    joins them through the middle pixel into a single detection. *)
Lemma lower_threshold_fewer_detections :
  (0.5 < 0.7)%Q /\
  length (demo_detections 0.5 25) = 1%nat /\
  length (demo_detections 0.7 25) = 2%nat.
Proof. vm_compute. auto. Qed.

(** C5, amended.  For [t1 < t2], every detection extracted at [t2] comes from
    a region that lies inside a region found at [t1]; that region has at
    least as many pixels and passes the minimum-area filter at [t1].  Regions
    separate at [t2] may share their region at [t1], so the number of
    detections may drop. *)
Theorem lower_threshold_covers {geojson : Type}
    (shapes : nat * nat -> list pixel -> list Q -> list (geojson * Z))
    (ring_area : geojson -> Q)
    (change_map : raster) (before_data : georef) (t1 t2 min_area_sqm : Q)
    (d2 : gmap string (value geojson)) :
  (t1 < t2)%Q ->
  d2 ∈ extract_detections shapes ring_area change_map before_data t2 min_area_sqm ->
  exists rg2 rg1,
    rg2 ∈ regionprops (label (binary_mask change_map t2)) change_map /\
    region_detection shapes ring_area change_map before_data min_area_sqm rg2 = Some d2 /\
    rg1 ∈ regionprops (label (binary_mask change_map t1)) change_map /\
    (forall q, q ∈ region_coords rg2 -> q ∈ region_coords rg1) /\
    (region_area rg2 <= region_area rg1)%nat /\
    (min_area_sqm <= area_sqm_of before_data rg1)%Q.
Proof.
  intros Hlt Hd. apply extract_detections_elem in Hd. destruct Hd as [rg2 [Hrg2 Hsome]].
  destruct (regions_mono change_map t1 t2 rg2) as [rg1 (Hrg1 & Hsub & Harea)];
    [lra | exact Hrg2 |].
  exists rg2, rg1. repeat split; try assumption.
  apply region_detection_some in Hsome. destruct Hsome as [Hmin _].
  eapply Qle_trans; [exact Hmin |]. unfold area_sqm_of.
  apply Qmult_le_compat_r; [| apply Qabs_nonneg].
  rewrite <- Zle_Qle. lia.
Qed.

Lemma lower_threshold_covers_witness :
  exists rg2 rg1,
    rg2 ∈ regionprops (label (binary_mask demo_map 0.7)) demo_map /\
    region_detection demo_shapes demo_ring_area demo_map demo_georef 25 rg2
      = Some demo_detection /\
    rg1 ∈ regionprops (label (binary_mask demo_map 0.5)) demo_map /\
    (forall q, q ∈ region_coords rg2 -> q ∈ region_coords rg1) /\
    (region_area rg2 <= region_area rg1)%nat /\
    (25 <= area_sqm_of demo_georef rg1)%Q.
Proof.
  apply (lower_threshold_covers demo_shapes demo_ring_area demo_map demo_georef
           0.5 0.7 25 demo_detection).
  - reflexivity.
  - vm_compute. left.
Defined.

(** *** Properties of preprocessing and of the fallback *)

Lemma preprocess_imagery_same_shape before_data after_data d0 dims :
  da_shape before_data = d0 :: dims ->
  da_shape after_data = d0 :: dims ->
  exists t, preprocess_imagery before_data after_data = ok t /\
            tensor_shape t = 1%nat :: (d0 + d0)%nat :: dims /\
            length (tensor_values t)
              = (length (da_values before_data) + length (da_values after_data))%nat.
Proof.
  intros Hb Ha. unfold preprocess_imagery, shape_eqb.
  rewrite Hb, Ha, bool_decide_eq_true_2 by reflexivity. simpl.
  destruct (contains _ _); simpl; eexists; (split; [reflexivity |]); simpl;
    by rewrite length_app, !length_map.
Qed.

(** C7.  When the shapes of the two rasters differ (the band count is the
    leading dimension of the shape), [preprocess_imagery] raises the
    same-shape [ValueError] and returns no tensor. *)
Theorem preprocess_shape_mismatch (before_data after_data : DataArray) :
  da_shape before_data <> da_shape after_data ->
  preprocess_imagery before_data after_data = raise shape_error.
Proof.
  intros Hne. unfold preprocess_imagery, shape_eqb.
  by rewrite bool_decide_eq_false_2.
Qed.

Lemma preprocess_shape_mismatch_witness :
  preprocess_imagery (demo_scene 4 0) (demo_scene 3 0) = raise shape_error.
Proof.
  apply (preprocess_shape_mismatch (demo_scene 4 0) (demo_scene 3 0)).
  vm_compute. discriminate.
Defined.

(** C1 on the backend file.  The fallback there never reads a pixel value:
    scenes of one shape give the same map for the same generator state.  Run
    twice on the same pair of scenes from two generator states it returns two
    different maps (bottom-right pixel 0 against 0.05).  And reached through
    [run_change_detection] with no model loaded, the call stops at the
    attribute lookup and no map is produced at all. *)
Theorem backend_fallback_not_reproducible :
  (forall before_data before_data' after_data after_data' g,
     da_shape before_data = da_shape before_data' ->
     _simple_difference_detection before_data after_data g
       = _simple_difference_detection before_data' after_data' g) /\
  match _simple_difference_detection (demo_scene 4 0) (demo_scene 4 0) (Rng tape_zero 0),
        _simple_difference_detection (demo_scene 4 0) (demo_scene 4 0) (Rng tape_one 0)
  with
  | inr (map_a, _), inr (map_b, _) =>
      (pixel_value map_a (11, 11)%nat == 0)%Q /\
      (pixel_value map_b (11, 11)%nat == 0.05)%Q
  | _, _ => False
  end /\
  (forall (geojson : Type)
          (shapes : nat * nat -> list pixel -> list Q -> list (geojson * Z))
          (ring_area : geojson -> Q) (self : MLService)
          (before_data after_data : DataArray) (t : Q) (g : rng),
     model_loaded self = false ->
     run_change_detection shapes ring_area self before_data after_data t g
       = (_ ← preprocess_imagery before_data after_data;
          raise (AttributeError
            "'MLService' object has no attribute '_simple_difference_detection'"))).
Proof.
  split; [| split].
  - intros b b' a a' g Hs. unfold _simple_difference_detection. by rewrite Hs.
  - vm_compute. split; reflexivity.
  - intros geojson shapes ring_area self b a t g Hm.
    unfold run_change_detection. rewrite Hm.
    by destruct (preprocess_imagery b a) as [e | tensor].
Qed.

(** *** Further properties of preprocessing, extraction and the backend fallback *)

Lemma Qclip_bounds lo hi x : (lo <= hi)%Q -> (lo <= Qclip lo hi x)%Q /\ (Qclip lo hi x <= hi)%Q.
Proof.
  intros Hle. unfold Qclip.
  destruct (Qltb x lo) eqn:E1; [split; [apply Qle_refl | exact Hle] |].
  apply Qltb_ge in E1.
  destruct (Qltb hi x) eqn:E2; [split; [exact Hle | apply Qle_refl] |].
  apply Qltb_ge in E2. split; assumption.
Qed.




(** X5.  When neither component of the raster resolution is zero, every
    extracted detection stems from a region of at least one pixel and its
    [area_sqm], the pixel count times the pixel area, is positive. *)
Theorem extracted_area_positive {geojson : Type}
    (shapes : nat * nat -> list pixel -> list Q -> list (geojson * Z))
    (ring_area : geojson -> Q)
    (change_map : raster) (before_data : georef) (t min_area_sqm : Q)
    (d : gmap string (value geojson)) :
  ~ (fst (resolution before_data) * snd (resolution before_data) == 0)%Q ->
  d ∈ extract_detections shapes ring_area change_map before_data t min_area_sqm ->
  exists rg,
    rg ∈ regionprops (label (binary_mask change_map t)) change_map /\
    (1 <= region_area rg)%nat /\
    d !! "area_sqm"
      = Some (VNum (inject_Z (Z.of_nat (region_area rg)) * pixel_area before_data)) /\
    (0 < inject_Z (Z.of_nat (region_area rg)) * pixel_area before_data)%Q.
Proof.
  intros Hres Hd. apply extract_detections_elem in Hd. destruct Hd as [rg [Hrg Hsome]].
  apply region_detection_some in Hsome. destruct Hsome as (_ & Harea & _).
  destruct (region_intensity_above _ _ _ Hrg) as [Hne _].
  assert (Hn : (1 <= region_area rg)%nat).
  { unfold region_area. destruct (region_coords rg); [congruence | simpl; lia]. }
  exists rg. split; [exact Hrg |]. split; [exact Hn |]. split; [exact Harea |].
  assert (Hp : (0 < pixel_area before_data)%Q).
  { unfold pixel_area.
    destruct (Qlt_le_dec 0 (Qabs (fst (resolution before_data) * snd (resolution before_data))))
      as [Hlt | Hle]; [exact Hlt |].
    exfalso. apply Hres. apply Qabs_Qle_condition in Hle. destruct Hle. lra. }
  assert (Hq : (1 <= inject_Z (Z.of_nat (region_area rg)))%Q).
  { change 1%Q with (inject_Z 1). rewrite <- Zle_Qle. lia. }
  nra.
Qed.

Lemma extracted_area_positive_witness :
  exists rg,
    rg ∈ regionprops (label (binary_mask demo_map 0.7)) demo_map /\
    (1 <= region_area rg)%nat /\
    demo_detection !! "area_sqm"
      = Some (VNum (inject_Z (Z.of_nat (region_area rg)) * pixel_area demo_georef)) /\
    (0 < inject_Z (Z.of_nat (region_area rg)) * pixel_area demo_georef)%Q.
Proof.
  apply (extracted_area_positive demo_shapes demo_ring_area demo_map demo_georef
           0.7 25 demo_detection).
  - vm_compute. discriminate.
  - vm_compute. left.
Defined.

Lemma omap_sublist {A B} (f g : A -> option B) (l : list A) :
  (forall x y, f x = Some y -> g x = Some y) -> sublist (omap f l) (omap g l).
Proof.
  intros Hfg. induction l as [| x l IH]; simpl; [constructor |].
  destruct (f x) as [y |] eqn:Ef.
  - rewrite (Hfg _ _ Ef). by constructor.
  - destruct (g x); [by constructor | exact IH].
Qed.

(** X6.  Raising the minimum area only removes detections: the detections
    extracted with the larger minimum are, in the same order, a sublist of
    those extracted with the smaller one. *)
Theorem higher_min_area_drops_detections {geojson : Type}
    (shapes : nat * nat -> list pixel -> list Q -> list (geojson * Z))
    (ring_area : geojson -> Q)
    (change_map : raster) (before_data : georef) (t min1 min2 : Q) :
  (min1 <= min2)%Q ->
  sublist (extract_detections shapes ring_area change_map before_data t min2)
          (extract_detections shapes ring_area change_map before_data t min1).
Proof.
  intros Hle. unfold extract_detections. apply omap_sublist.
  intros rg d. unfold region_detection.
  destruct (Qltb _ min2) eqn:E2; [discriminate |].
  apply Qltb_ge in E2.
  destruct (Qltb _ min1) eqn:E1; [| auto].
  apply Qltb_lt in E1. lra.
Qed.

Lemma higher_min_area_drops_detections_witness :
  sublist (demo_detections 0.7 150) (demo_detections 0.7 25).
Proof.
  apply (higher_min_area_drops_detections demo_shapes demo_ring_area demo_map demo_georef
           0.7 25 150).
  by vm_compute.
Defined.

Lemma randint_range low high g v g' :
  randint low high g = ok (v, g') -> (low <= v < high)%Z.
Proof.
  unfold randint. destruct (high <=? low)%Z eqn:E; [discriminate |].
  apply Z.leb_gt in E. intros [= <- <-].
  pose proof (Z.mod_pos_bound (Qfloor (tape g (cursor g))) (high - low)). lia.
Qed.

Lemma randint_empty low high g :
  (high <= low)%Z -> randint low high g = raise (ValueError "low >= high").
Proof.
  intros H. unfold randint. apply Z.leb_le in H. by rewrite H.
Qed.

Lemma randint_cases low high g :
  randint low high g = raise (ValueError "low >= high") \/
  exists v g', randint low high g = ok (v, g').
Proof.
  unfold randint. destruct (high <=? low)%Z; [by left | right].
  simpl. eauto.
Qed.

Lemma add_changes_small n height width change_map g :
  (width <= 10 \/ height <= 10)%nat ->
  add_changes (S n) height width change_map g = raise (ValueError "low >= high").
Proof.
  intros Hsmall. cbn [add_changes].
  destruct (randint_cases 10 51 g) as [E1 | (size & g1 & E1)]; rewrite E1; [reflexivity |].
  apply randint_range in E1. cbn [mbind result_bind ok raise].
  destruct (randint_cases 0 (Z.of_nat width - size) g1) as [E2 | (x & g2 & E2)];
    rewrite E2; [reflexivity |].
  pose proof (randint_range _ _ _ _ _ E2) as Hx. cbn [mbind result_bind ok raise].
  rewrite randint_empty; [reflexivity | lia].
Qed.

(** X7.  On rasters at most 10 pixels wide or at most 10 pixels high the
    backend fallback raises [ValueError]: a block size of at least 10 is drawn
    first and [randint] is then asked for a value from an empty range. *)
Theorem backend_fallback_small_raster (before_data after_data : DataArray) (g : rng)
    (height width : nat) :
  last_two (da_shape before_data) = ok (height, width) ->
  (width <= 10 \/ height <= 10)%nat ->
  _simple_difference_detection before_data after_data g
    = raise (ValueError "low >= high").
Proof.
  intros Hs Hsmall. unfold _simple_difference_detection. rewrite Hs.
  cbn [mbind result_bind ok raise].
  destruct (randint_cases 1 4 g) as [E1 | (num & g1 & E1)]; rewrite E1; [reflexivity |].
  pose proof (randint_range _ _ _ _ _ E1) as Hn. cbn [mbind result_bind ok raise].
  destruct (Z.to_nat num) as [| n] eqn:En; [lia |].
  by rewrite add_changes_small.
Qed.

Lemma backend_fallback_small_raster_witness :
  _simple_difference_detection
    {| da_shape := [4; 10; 64]%nat; da_values := []; da_collection := None;
       da_rio := demo_georef |}
    (demo_scene 4 0) (Rng tape_one 0)
    = raise (ValueError "low >= high").
Proof.
  apply (backend_fallback_small_raster _ _ _ 10%nat 64%nat).
  - reflexivity.
  - right. lia.
Defined.

Definition raster_dims (height width : nat) (m : raster) : Prop :=
  length m = height /\ Forall (fun row => length row = width) m.

Lemma fill_block_dims y x size confidence height width m :
  raster_dims height width m ->
  raster_dims height width (fill_block y x size confidence m).
Proof.
  intros [Hh Hw]. unfold raster_dims, fill_block. split.
  - by rewrite length_imap.
  - apply Forall_forall. intros row Hrow.
    apply list_elem_of_lookup in Hrow. destruct Hrow as [i Hi].
    rewrite list_lookup_imap in Hi. unfold raster in *.
    destruct (m !! i) as [row0 |] eqn:E; simpl in Hi; [| discriminate].
    assert (length row0 = width).
    { rewrite Forall_forall in Hw. apply Hw. eapply list_elem_of_lookup_2. exact E. }
    destruct (_ && _); inversion Hi; subst;
      [unfold fill_row; by rewrite length_imap | reflexivity].
Qed.

Lemma add_changes_dims n height width change_map g m g' :
  raster_dims height width change_map ->
  add_changes n height width change_map g = ok (m, g') ->
  raster_dims height width m.
Proof.
  revert change_map g. induction n as [| n IH]; intros change_map g Hd H;
    cbn [add_changes] in H; unfold ok in H.
  - by inversion H; subst.
  - destruct (randint 10 51 g) as [e | [size g1]];
      cbn [mbind result_bind] in H; [discriminate |].
    destruct (randint 0 _ g1) as [e | [x g2]];
      cbn [mbind result_bind] in H; [discriminate |].
    destruct (randint 0 _ g2) as [e | [y g3]];
      cbn [mbind result_bind] in H; [discriminate |].
    destruct (uniform 0.6 0.95 g3) as [confidence g4].
    eapply IH; [| exact H]. by apply fill_block_dims.
Qed.

Lemma normal_row_length mu sigma n g : length (fst (normal_row mu sigma n g)) = n.
Proof.
  revert g. induction n as [| n IH]; intros g; cbn [normal_row]; [reflexivity |].
  destruct (next g) as [z g1]. specialize (IH g1).
  destruct (normal_row mu sigma n g1) as [zs g2]. cbn [fst length] in *. congruence.
Qed.

Lemma normal_dims mu sigma height width g :
  raster_dims height width (fst (normal mu sigma height width g)).
Proof.
  revert g. induction height as [| h IH]; intros g; cbn [normal].
  - split; [reflexivity | constructor].
  - pose proof (normal_row_length mu sigma width g) as Hr.
    destruct (normal_row mu sigma width g) as [row g1].
    specialize (IH g1). destruct (normal mu sigma h width g1) as [rows g2].
    cbn [fst] in *. destruct IH as [Hh Hw].
    split; [cbn [length]; congruence | by constructor].
Qed.

Lemma add_rasters_dims height width a b :
  raster_dims height width a -> raster_dims height width b ->
  raster_dims height width (add_rasters a b).
Proof.
  intros [Ha Hwa] [Hb Hwb]. unfold raster_dims, add_rasters. split.
  - rewrite length_zip_with. lia.
  - revert b height Ha Hb Hwb. induction Hwa as [| ra a Hra _ IH]; intros b height Ha Hb Hwb.
    + constructor.
    + destruct Hwb as [| rb b Hrb Hwb]; [constructor |]. simpl. constructor.
      * rewrite length_zip_with. lia.
      * eapply (IH b (length a)); [reflexivity | | exact Hwb].
        simpl in Ha, Hb. lia.
Qed.

(** X8.  Whenever the backend fallback returns, its change map has the height
    and width of the before image and every value lies between 0 and 1. *)
Theorem backend_fallback_output (before_data after_data : DataArray) (g g' : rng)
    (change_map : raster) :
  _simple_difference_detection before_data after_data g = ok (change_map, g') ->
  exists height width,
    last_two (da_shape before_data) = ok (height, width) /\
    length change_map = height /\
    Forall (fun row => length row = width /\
                       Forall (fun v => (0 <= v)%Q /\ (v <= 1)%Q) row) change_map.
Proof.
  intros H.
  destruct (last_two (da_shape before_data)) as [e | [height width]] eqn:Hs.
  { unfold _simple_difference_detection in H. rewrite Hs in H. discriminate. }
  exists height, width. split; [reflexivity |].
  unfold _simple_difference_detection, ok in H. rewrite Hs in H.
  cbn [mbind result_bind ok] in H.
  destruct (randint 1 4 g) as [e | [num g1]];
    cbn [mbind result_bind] in H; [discriminate |].
  destruct (add_changes _ _ _ _ g1) as [e | [m g2]] eqn:Ha;
    cbn [mbind result_bind] in H; [discriminate |].
  pose proof (normal_dims 0 0.05 height width g2) as Hn.
  destruct (normal 0 0.05 height width g2) as [noise g3]. simpl in Hn.
  inversion H; subst. clear H.
  assert (Hd : raster_dims height width (add_rasters m noise)).
  { apply add_rasters_dims; [| exact Hn].
    eapply add_changes_dims; [| exact Ha].
    split; [by rewrite length_replicate |].
    apply Forall_forall. intros row Hrow. apply elem_of_replicate in Hrow.
    destruct Hrow as [-> _]. by rewrite length_replicate. }
  destruct Hd as [Hlen Hrows]. split; [by rewrite length_map |].
  apply Forall_forall. intros row Hrow. apply list_elem_of_In, in_map_iff in Hrow.
  destruct Hrow as [row0 [<- Hrow0]]. split.
  - rewrite length_map. rewrite Forall_forall in Hrows. apply Hrows.
    by apply list_elem_of_In.
  - apply Forall_forall. intros v Hv. apply list_elem_of_In, in_map_iff in Hv.
    destruct Hv as [v0 [<- _]]. apply Qclip_bounds. lra.
Qed.

Definition demo_fallback_map : raster :=
  match _simple_difference_detection (demo_scene 4 0) (demo_scene 4 0) (Rng tape_zero 0) with
  | inr (m, _) => m
  | inl _ => []
  end.

Definition demo_fallback_rng : rng :=
  match _simple_difference_detection (demo_scene 4 0) (demo_scene 4 0) (Rng tape_zero 0) with
  | inr (_, g) => g
  | inl _ => Rng tape_zero 0
  end.

Lemma backend_fallback_output_witness :
  exists height width,
    last_two (da_shape (demo_scene 4 0)) = ok (height, width) /\
    length demo_fallback_map = height /\
    Forall (fun row => length row = width /\
                       Forall (fun v => (0 <= v)%Q /\ (v <= 1)%Q) row) demo_fallback_map.
Proof.
  apply (backend_fallback_output (demo_scene 4 0) (demo_scene 4 0) (Rng tape_zero 0)
           demo_fallback_rng demo_fallback_map).
  vm_compute. reflexivity.
Defined.

(** X2.  [preprocess_imagery] returns a tensor exactly when the two images
    have the same shape and that shape has at least one dimension; in every
    other case it raises. *)
Theorem preprocess_returns_iff (before_data after_data : DataArray) :
  (exists t, preprocess_imagery before_data after_data = ok t) <->
  (da_shape before_data = da_shape after_data /\ da_shape before_data <> []).
Proof.
  split.
  - intros [t Ht]. unfold preprocess_imagery, shape_eqb in Ht.
    destruct (bool_decide (da_shape before_data = da_shape after_data)) eqn:E;
      [| discriminate].
    apply bool_decide_eq_true in E. split; [exact E |].
    intros Hnil. rewrite Hnil in Ht. simpl in Ht.
    destruct (contains _ _); discriminate.
  - intros [Heq Hne].
    destruct (da_shape before_data) as [| d0 dims] eqn:Hb; [congruence |].
    destruct (preprocess_imagery_same_shape before_data after_data d0 dims Hb)
      as (t & Ht & _); [congruence |].
    by exists t.
Qed.

End ML.

Module Validation.

(** *** [ValidationService]

    Shapely is reached through three operations: [shape] builds a geometry
    from a GeoJSON mapping and raises on a malformed one, [intersects] is the
    boundary-inclusive predicate, and [__geo_interface__] of a geometry is the
    mapping with the two keys [type] and [coordinates]. *)

Section Service.
Context {geojson shapely : Type}.
Variable shape : geojson -> result shapely.
Variable intersects : shapely -> shapely -> bool.
Variable geom_type : shapely -> string.
Variable to_geojson_coords : shapely -> geojson.

Abbreviation detection := (gmap string (value geojson)).

(** The entries of a [__geo_interface__] mapping. *)
Inductive geo_value : Type :=
| GStr (s : string)
| GCoords (g : geojson)
| GDict (d : gmap string string).

Definition geo_interface (zone : shapely) : gmap string geo_value :=
  <["type" := GStr (geom_type zone)]>
  (<["coordinates" := GCoords (to_geojson_coords zone)]> ∅).

(** [d[key]] on a dictionary. *)
Definition getitem {V} (d : gmap string V) (key : string) : result V :=
  match d !! key with
  | Some v => ok v
  | None => raise (KeyError key)
  end.

(** [mapping.get(key, fallback)] on an entry that should be a dictionary. *)
Definition get_or (v : geo_value) (key fallback : string) : result string :=
  match v with
  | GDict d => ok (default fallback (d !! key))
  | _ => raise (AttributeError "object has no attribute 'get'")
  end.

(** [shape(detection['geometry'])] *)
Definition detection_shape (d : detection) : result shapely :=
  g ← getitem d "geometry";
  match g with
  | VGeom g => shape g
  | _ => raise (Exception "not a geometry mapping")
  end.

(** [f"Intersects {zone_type}"] for one intersecting zone. *)
Definition flag_reason (zone : shapely) : result string :=
  properties ← getitem (geo_interface zone) "properties";
  zone_type ← get_or properties "zone_type" "protected_area";
  ok ("Intersects " +:+ zone_type).

(** A [for] loop that appends one result per element, stopping at the first
    exception. *)
Fixpoint for_each {A B} (f : A -> result B) (l : list A) : result (list B) :=
  match l with
  | [] => ok []
  | x :: l' => y ← f x; ys ← for_each f l'; ok (y :: ys)
  end.

(** The body of the loop [for detection in detections]. *)
Definition validate_one (relevant_zones : list shapely) (d : detection)
  : result detection :=
  det_geom ← detection_shape d;
  let is_in_protected_zone := existsb (intersects det_geom) relevant_zones in
  let updated_detection :=
    <["flag_reasons" := VStrs []]> (<["flagged" := VBool is_in_protected_zone]> d) in
  if is_in_protected_zone then
    let intersecting_zones := List.filter (intersects det_geom) relevant_zones in
    reasons ← for_each flag_reason intersecting_zones;
    ok (<["flag_reasons" := VStrs reasons]> updated_detection)
  else ok updated_detection.

(** The [try] block of [validate_detections]. *)
Definition validate_try (protected_zones : list shapely)
    (detections : list detection) (aoi_geometry : geojson)
  : result (list detection) :=
  aoig ← shape aoi_geometry;
  let relevant_zones :=
    List.filter (fun zone => intersects zone aoig) protected_zones in
  match relevant_zones with
  | [] => ok detections
  | _ => for_each (validate_one relevant_zones) detections
  end.

(** [except Exception: return detections] *)
Definition validate_detections (protected_zones : list shapely)
    (detections : list detection) (aoi_geometry : geojson) : list detection :=
  match validate_try protected_zones detections aoi_geometry with
  | inl _ => detections
  | inr validated_detections => validated_detections
  end.

(** *** [_load_protected_zones]

    The module imports [logging], [json], names from [typing] and [shapely]
    and [settings]; it does not import [os].  Reading the global name [os]
    is the first thing the [try] block does. *)

Definition module_globals : list string :=
  ["logging"; "List"; "Dict"; "Any"; "shape"; "Polygon"; "unary_union"; "prep";
   "settings"; "json"; "logger"; "ValidationService"].

Definition global_name (name : string) : result unit :=
  if bool_decide (name ∈ module_globals) then ok ()
  else raise (NameError ("name '" +:+ name +:+ "' is not defined")).

Record feature : Type := Feature {
  feature_geometry : option geojson;
  feature_geometry_type : string
}.

Variable path_exists : string -> bool.
Variable read_features : string -> result (list feature).
Variable geoms : shapely -> list shapely.

Definition feature_polygons (f : feature) : result (list shapely) :=
  match feature_geometry f with
  | None => ok []
  | Some geom =>
      if String.eqb (feature_geometry_type f) "Polygon"
      then p ← shape geom; ok [p]
      else if String.eqb (feature_geometry_type f) "MultiPolygon"
      then mp ← shape geom; ok (geoms mp)
      else ok []
  end.

Definition load_try (path : string) : result (list shapely) :=
  _ ← global_name "os";
  if negb (path_exists path) then ok []
  else
    features ← read_features path;
    polygons ← for_each feature_polygons features;
    ok (concat polygons).

Definition _load_protected_zones (path : string) : list shapely :=
  match load_try path with
  | inl _ => []
  | inr polygons => polygons
  end.

End Service.

(** *** A small instance: axis-parallel boxes with integer corners *)

Record box : Type := Box { xmin : Z; ymin : Z; xmax : Z; ymax : Z }.

Definition box_shape (b : box) : result box :=
  if ((xmax b <? xmin b) || (ymax b <? ymin b))%Z
  then raise (ValueError "malformed geometry")
  else ok b.

Definition box_intersects (a b : box) : bool :=
  ((xmin a <=? xmax b) && (xmin b <=? xmax a) &&
   (ymin a <=? ymax b) && (ymin b <=? ymax a))%Z.

Definition box_type (_ : box) : string := "Polygon".

Definition demo_validate :=
  validate_detections box_shape box_intersects box_type id.

Definition demo_validate_try :=
  validate_try box_shape box_intersects box_type id.

Definition demo_aoi : box := Box 0 0 100 100.
Definition demo_forest : box := Box 0 0 50 50.
Definition demo_far_zone : box := Box 500 500 600 600.
Definition demo_bad_aoi : box := Box 10 10 0 0.

(** A detection as the extractor builds it, inside [demo_forest]. *)
Definition demo_inside_forest : gmap string (value box) :=
  ML.detection_of (Box 10 10 20 20) 0.9 100.

(** *** Facts *)

Section ServiceFacts.
Context {geojson shapely : Type}.
Variable shape : geojson -> result shapely.
Variable intersects : shapely -> shapely -> bool.
Variable geom_type : shapely -> string.
Variable to_geojson_coords : shapely -> geojson.

Lemma for_each_Forall2 {A B} (f : A -> result B) l r :
  for_each f l = ok r -> Forall2 (fun x y => f x = ok y) l r.
Proof.
  revert r. induction l as [| x l IH]; intros r H; simpl in H.
  - inversion H. constructor.
  - destruct (f x) as [e | y] eqn:Ex; [discriminate |]. simpl in H.
    destruct (for_each f l) as [e | ys] eqn:El; [discriminate |]. simpl in H.
    inversion H; subst. constructor; [exact Ex | by apply IH].
Qed.

(** The zones of a geometry's interface mapping never hold properties. *)
Lemma flag_reason_raises zone :
  flag_reason geom_type to_geojson_coords zone = raise (KeyError "properties").
Proof. reflexivity. Qed.

Lemma validate_one_frame relevant_zones (d d' : gmap string (value geojson)) :
  validate_one shape intersects geom_type to_geojson_coords relevant_zones d = ok d' ->
  forall k, k <> "flagged" -> k <> "flag_reasons" -> d' !! k = d !! k.
Proof.
  unfold validate_one. intros H k Hk1 Hk2.
  destruct (detection_shape shape d) as [e | det_geom]; [discriminate |]. simpl in H.
  destruct (existsb _ _).
  - destruct (for_each _ _) as [e | reasons]; [discriminate |]. simpl in H.
    inversion H; subst. by rewrite !lookup_insert_ne.
  - inversion H; subst. by rewrite !lookup_insert_ne.
Qed.

(** Once its geometry meets a relevant zone, a detection stops the loop. *)
Lemma validate_one_intersecting relevant_zones (d : gmap string (value geojson)) det_geom :
  detection_shape shape d = ok det_geom ->
  existsb (intersects det_geom) relevant_zones = true ->
  validate_one shape intersects geom_type to_geojson_coords relevant_zones d
    = raise (KeyError "properties").
Proof.
  intros Hs Hex. unfold validate_one. rewrite Hs. simpl. rewrite Hex.
  destruct (List.filter (intersects det_geom) relevant_zones) as [| z zs] eqn:E.
  - apply existsb_exists in Hex. destruct Hex as [z [Hin Hz]].
    assert (In z (List.filter (intersects det_geom) relevant_zones))
      by (apply filter_In; auto).
    rewrite E in H. destruct H.
  - reflexivity.
Qed.

Lemma validate_no_zone (detections : list (gmap string (value geojson))) aoi_geometry :
  validate_detections shape intersects geom_type to_geojson_coords [] detections aoi_geometry
    = detections.
Proof.
  unfold validate_detections, validate_try.
  by destruct (shape aoi_geometry).
Qed.

Lemma load_protected_zones_empty path_exists read_features geoms path :
  _load_protected_zones shape path_exists read_features geoms path = [].
Proof. reflexivity. Qed.

End ServiceFacts.

(** *** Properties of validation *)

(** C3.  [validate_detections] returns as many detections as it was given, in
    the same order, and each returned dictionary agrees with its input on
    every key other than [flagged] and [flag_reasons], the geometry among
    them. *)
Theorem validate_preserves_detections {geojson shapely : Type}
    (shape : geojson -> result shapely) (intersects : shapely -> shapely -> bool)
    (geom_type : shapely -> string) (to_geojson_coords : shapely -> geojson)
    (protected_zones : list shapely) (detections : list (gmap string (value geojson)))
    (aoi_geometry : geojson) :
  let validated :=
    validate_detections shape intersects geom_type to_geojson_coords
      protected_zones detections aoi_geometry in
  length validated = length detections /\
  Forall2 (fun d d' =>
             d' !! "geometry" = d !! "geometry" /\
             forall k, k <> "flagged" -> k <> "flag_reasons" -> d' !! k = d !! k)
          detections validated.
Proof.
  assert (Hid : forall l : list (gmap string (value geojson)),
            Forall2 (fun d d' =>
                       d' !! "geometry" = d !! "geometry" /\
                       forall k, k <> "flagged" -> k <> "flag_reasons" -> d' !! k = d !! k)
                    l l).
  { intros l. apply Forall_Forall2_diag, Forall_forall. auto. }
  cbv zeta. unfold validate_detections.
  destruct (validate_try _ _ _ _ _ _ _) as [e | validated] eqn:Htry; [by split |].
  unfold validate_try in Htry.
  destruct (shape aoi_geometry) as [e | aoig]; [discriminate |]. simpl in Htry.
  destruct (List.filter _ protected_zones) as [| z zs].
  - inversion Htry; subst. by split.
  - apply for_each_Forall2 in Htry. split.
    + symmetry. by eapply Forall2_length.
    + eapply Forall2_impl; [exact Htry |].
      intros d d' Hone. split.
      * eapply validate_one_frame; [exact Hone | discriminate | discriminate].
      * intros k. eapply validate_one_frame. exact Hone.
Qed.

(** C4 on the code.  A detection that comes out of the loop is never
    flagged: as soon as a detection's geometry meets a relevant zone, reading
    [properties] from the zone's interface mapping raises [KeyError].  With
    the forest zone inside the AOI and a detection inside the forest zone,
    the [try] block ends in that exception and the detection is handed back
    as it came in, [flagged] false and [flag_reasons] empty. *)
Theorem validate_never_flags :
  (forall (geojson shapely : Type)
          (shape : geojson -> result shapely) (intersects : shapely -> shapely -> bool)
          (geom_type : shapely -> string) (to_geojson_coords : shapely -> geojson)
          (relevant_zones : list shapely) (d d' : gmap string (value geojson)),
     validate_one shape intersects geom_type to_geojson_coords relevant_zones d = ok d' ->
     d' !! "flagged" = Some (VBool false) /\ d' !! "flag_reasons" = Some (VStrs [])) /\
  box_intersects (Box 10 10 20 20) demo_forest = true /\
  demo_validate_try [demo_forest] [demo_inside_forest] demo_aoi
    = raise (KeyError "properties") /\
  demo_validate [demo_forest] [demo_inside_forest] demo_aoi = [demo_inside_forest] /\
  demo_inside_forest !! "flagged" = Some (VBool false) /\
  demo_inside_forest !! "flag_reasons" = Some (VStrs []).
Proof.
  split.
  - intros geojson shapely shape intersects geom_type to_geojson_coords zs d d' H.
    destruct (detection_shape shape d) as [e | det_geom] eqn:Hs.
    { unfold validate_one in H. rewrite Hs in H. discriminate. }
    destruct (existsb (intersects det_geom) zs) eqn:Hex.
    + rewrite (validate_one_intersecting _ _ _ _ _ _ _ Hs Hex) in H. discriminate.
    + unfold validate_one in H. rewrite Hs in H. simpl in H. rewrite Hex in H.
      inversion H; subst. split; by simplify_map_eq.
  - vm_compute. repeat split; reflexivity.
Qed.

(** C10.  Whatever exception the [try] block of [validate_detections] ends
    in, the function returns the detections it was given, which is also what
    it returns when there is no protected zone at all. *)
Theorem validate_swallows_exceptions {geojson shapely : Type}
    (shape : geojson -> result shapely) (intersects : shapely -> shapely -> bool)
    (geom_type : shapely -> string) (to_geojson_coords : shapely -> geojson)
    (protected_zones : list shapely) (detections : list (gmap string (value geojson)))
    (aoi_geometry : geojson) (e : exn) :
  validate_try shape intersects geom_type to_geojson_coords
    protected_zones detections aoi_geometry = raise e ->
  validate_detections shape intersects geom_type to_geojson_coords
    protected_zones detections aoi_geometry = detections /\
  validate_detections shape intersects geom_type to_geojson_coords
    protected_zones detections aoi_geometry
  = validate_detections shape intersects geom_type to_geojson_coords
      [] detections aoi_geometry.
Proof.
  intros H. rewrite validate_no_zone. unfold validate_detections. by rewrite H.
Qed.

Lemma validate_swallows_exceptions_witness :
  demo_validate [demo_forest] [demo_inside_forest] demo_bad_aoi = [demo_inside_forest] /\
  demo_validate [demo_forest] [demo_inside_forest] demo_bad_aoi
  = demo_validate [] [demo_inside_forest] demo_bad_aoi.
Proof.
  apply (validate_swallows_exceptions box_shape box_intersects box_type id
           [demo_forest] [demo_inside_forest] demo_bad_aoi
           (ValueError "malformed geometry")).
  reflexivity.
Defined.

(** *** Further properties of validation *)

Section MoreServiceFacts.
Context {geojson shapely : Type}.
Variable shape : geojson -> result shapely.
Variable intersects : shapely -> shapely -> bool.
Variable geom_type : shapely -> string.
Variable to_geojson_coords : shapely -> geojson.

(** What the loop writes into a detection that meets no relevant zone. *)
Definition reset_flags (d : gmap string (value geojson)) : gmap string (value geojson) :=
  <["flag_reasons" := VStrs []]> (<["flagged" := VBool false]> d).

Lemma reset_flags_idemp d : reset_flags (reset_flags d) = reset_flags d.
Proof.
  unfold reset_flags. apply map_eq. intros k.
  rewrite !lookup_insert. by repeat case_decide.
Qed.

Lemma detection_shape_reset d :
  detection_shape shape (reset_flags d) = detection_shape shape d.
Proof.
  unfold detection_shape, getitem, reset_flags.
  by rewrite !lookup_insert_ne by discriminate.
Qed.

(** [validate_one] returns only for a detection that meets no relevant zone,
    and then returns it with its flags reset. *)
Lemma validate_one_ok relevant_zones (d d' : gmap string (value geojson)) :
  validate_one shape intersects geom_type to_geojson_coords relevant_zones d = ok d' <->
  exists det_geom,
    detection_shape shape d = ok det_geom /\
    existsb (intersects det_geom) relevant_zones = false /\
    d' = reset_flags d.
Proof.
  split.
  - intros H. destruct (detection_shape shape d) as [e | det_geom] eqn:Hs.
    { unfold validate_one in H. rewrite Hs in H. discriminate. }
    exists det_geom. split; [reflexivity |].
    destruct (existsb (intersects det_geom) relevant_zones) eqn:Hex.
    + rewrite (validate_one_intersecting _ _ _ _ _ _ _ Hs Hex) in H. discriminate.
    + split; [reflexivity |]. unfold validate_one in H. rewrite Hs in H.
      cbn [mbind result_bind] in H. rewrite Hex in H. by inversion H.
  - intros (det_geom & Hs & Hex & ->). unfold validate_one. rewrite Hs.
    cbn [mbind result_bind ok]. by rewrite Hex.
Qed.

Lemma for_each_ok_map {A B} (f : A -> result B) (g : A -> B) l :
  (forall x, x ∈ l -> f x = ok (g x)) -> for_each f l = ok (List.map g l).
Proof.
  induction l as [| x l IH]; intros H; [reflexivity |].
  cbn [for_each]. rewrite (H x) by left. cbn [mbind result_bind ok].
  rewrite IH by (intros y Hy; apply H; by right). reflexivity.
Qed.

Lemma for_each_ok_inv {A B} (f : A -> result B) (g : A -> B) l r :
  (forall x y, f x = ok y -> y = g x) -> for_each f l = ok r -> r = List.map g l.
Proof.
  intros Hfg H. apply for_each_Forall2 in H.
  induction H as [| x y l r Hxy _ IH]; [reflexivity |].
  simpl. by rewrite (Hfg _ _ Hxy), IH.
Qed.

(** X9.  When none of the protected zones intersects the area of interest,
    [validate_detections] returns the detections it was given, unchanged:
    flags set earlier stay as they are. *)
Theorem validate_no_relevant_zone protected_zones
    (detections : list (gmap string (value geojson))) aoi_geometry :
  (forall aoig zone, shape aoi_geometry = ok aoig -> zone ∈ protected_zones ->
                     intersects zone aoig = false) ->
  validate_detections shape intersects geom_type to_geojson_coords
    protected_zones detections aoi_geometry = detections.
Proof.
  intros H. unfold validate_detections, validate_try.
  destruct (shape aoi_geometry) as [e | aoig]; [reflexivity |].
  cbn [mbind result_bind].
  destruct (List.filter _ protected_zones) as [| z zs] eqn:E; [reflexivity |].
  assert (Hin : In z (List.filter (fun zone => intersects zone aoig) protected_zones))
    by (rewrite E; by left).
  apply filter_In in Hin. destruct Hin as [Hin Hz].
  rewrite (H aoig z eq_refl) in Hz by (by apply list_elem_of_In). discriminate.
Qed.

(** X10.  When some protected zone intersects the area of interest and every
    detection has a readable geometry that intersects no such zone,
    [validate_detections] returns every detection with [flagged] set to false
    and [flag_reasons] emptied, whatever these keys held before. *)
Theorem validate_resets_flags protected_zones
    (detections : list (gmap string (value geojson))) aoi_geometry aoig :
  shape aoi_geometry = ok aoig ->
  (exists zone, zone ∈ protected_zones /\ intersects zone aoig = true) ->
  (forall d, d ∈ detections ->
     exists det_geom, detection_shape shape d = ok det_geom /\
       forall zone, zone ∈ protected_zones -> intersects zone aoig = true ->
                    intersects det_geom zone = false) ->
  validate_detections shape intersects geom_type to_geojson_coords
    protected_zones detections aoi_geometry = List.map reset_flags detections.
Proof.
  intros Hs [zone [Hzone Hz]] Hd. unfold validate_detections, validate_try.
  rewrite Hs. cbn [mbind result_bind ok].
  destruct (List.filter _ protected_zones) as [| z zs] eqn:E.
  { assert (Hin : In zone (List.filter (fun zone => intersects zone aoig) protected_zones))
      by (apply filter_In; split; [by apply list_elem_of_In | exact Hz]).
    rewrite E in Hin. destruct Hin. }
  rewrite <- E. rewrite (for_each_ok_map _ reset_flags); [reflexivity |].
  intros d Hin. apply validate_one_ok. destruct (Hd d Hin) as [det_geom [Hg Hno]].
  exists det_geom. split; [exact Hg |]. split; [| reflexivity].
  destruct (existsb _ _) eqn:Hex; [| reflexivity].
  apply existsb_exists in Hex. destruct Hex as [z' [Hz' Hi]].
  apply filter_In in Hz'. destruct Hz' as [Hz'1 Hz'2].
  rewrite (Hno z') in Hi; [discriminate | by apply list_elem_of_In | exact Hz'2].
Qed.

Lemma validate_cases protected_zones
    (detections : list (gmap string (value geojson))) aoi_geometry :
  validate_detections shape intersects geom_type to_geojson_coords
    protected_zones detections aoi_geometry = detections \/
  exists aoig relevant_zones,
    shape aoi_geometry = ok aoig /\
    List.filter (fun zone => intersects zone aoig) protected_zones = relevant_zones /\
    relevant_zones <> [] /\
    Forall (fun d => validate_one shape intersects geom_type to_geojson_coords
                       relevant_zones d = ok (reset_flags d)) detections /\
    validate_detections shape intersects geom_type to_geojson_coords
      protected_zones detections aoi_geometry = List.map reset_flags detections.
Proof.
  unfold validate_detections.
  destruct (validate_try _ _ _ _ _ _ _) as [e | out] eqn:Htry; [by left |].
  unfold validate_try in Htry.
  destruct (shape aoi_geometry) as [e | aoig] eqn:Hs; [discriminate |].
  cbn [mbind result_bind] in Htry.
  destruct (List.filter _ protected_zones) as [| z zs] eqn:E.
  { inversion Htry; subst. by left. }
  right. exists aoig, (z :: zs). split; [reflexivity |]. split; [exact E |].
  split; [discriminate |].
  assert (Hout : out = List.map reset_flags detections).
  { eapply for_each_ok_inv; [| exact Htry].
    intros x y Hxy. apply validate_one_ok in Hxy. by destruct Hxy as (_ & _ & _ & ->). }
  split; [| exact Hout].
  apply for_each_Forall2 in Htry. subst out.
  clear -Htry. induction detections as [| d ds IH]; [constructor |].
  inversion Htry as [| ? ? ? ? Hd Hrest]; subst. constructor; [exact Hd | by apply IH].
Qed.

(** X11.  Validating the output of [validate_detections] again, with the same
    zones and area of interest, returns that output unchanged. *)
Theorem validate_idempotent protected_zones
    (detections : list (gmap string (value geojson))) aoi_geometry :
  validate_detections shape intersects geom_type to_geojson_coords protected_zones
    (validate_detections shape intersects geom_type to_geojson_coords protected_zones
       detections aoi_geometry) aoi_geometry
  = validate_detections shape intersects geom_type to_geojson_coords protected_zones
      detections aoi_geometry.
Proof.
  destruct (validate_cases protected_zones detections aoi_geometry)
    as [H | (aoig & rel & Hs & E & Hne & Hall & H)]; rewrite H; [exact H |].
  unfold validate_detections, validate_try. rewrite Hs. cbn [mbind result_bind ok].
  rewrite E. destruct rel as [| z zs]; [congruence |].
  rewrite (for_each_ok_map _ reset_flags).
  - rewrite List.map_map. apply List.map_ext. intros d. apply reset_flags_idemp.
  - intros d' Hd'. apply list_elem_of_In, in_map_iff in Hd'.
    destruct Hd' as [d [<- Hd]]. apply list_elem_of_In in Hd.
    rewrite Forall_forall in Hall. specialize (Hall d Hd).
    apply validate_one_ok in Hall. destruct Hall as (det_geom & Hg & Hex & _).
    apply validate_one_ok. exists det_geom. rewrite detection_shape_reset.
    split; [exact Hg |]. split; [exact Hex | reflexivity].
Qed.

End MoreServiceFacts.

Definition demo_outside_flagged : gmap string (value box) :=
  <["flagged" := VBool true]> (ML.detection_of (Box 60 60 70 70) 0.9 100).

Lemma validate_no_relevant_zone_witness :
  demo_validate [demo_far_zone] [demo_inside_forest; demo_outside_flagged] demo_aoi
    = [demo_inside_forest; demo_outside_flagged].
Proof.
  apply (validate_no_relevant_zone box_shape box_intersects box_type id
           [demo_far_zone] [demo_inside_forest; demo_outside_flagged] demo_aoi).
  intros aoig zone [= <-] Hz. apply list_elem_of_singleton in Hz. subst zone.
  reflexivity.
Defined.

Lemma validate_resets_flags_witness :
  demo_validate [demo_forest] [demo_outside_flagged] demo_aoi
    = List.map reset_flags [demo_outside_flagged].
Proof.
  apply (validate_resets_flags box_shape box_intersects box_type id
           [demo_forest] [demo_outside_flagged] demo_aoi demo_aoi).
  - reflexivity.
  - exists demo_forest. split; [left | reflexivity].
  - intros d Hd. apply list_elem_of_singleton in Hd. subst d.
    exists (Box 60 60 70 70). split; [reflexivity |].
    intros zone Hz _. apply list_elem_of_singleton in Hz. subst zone. reflexivity.
Defined.

End Validation.

Module STAC.

(** *** [STACService]

    A [datetime] is a number of seconds since the epoch; [strftime('%Y-%m-%d')]
    keeps its day.  ISO-formatted timestamps of one catalogue sort as the
    instants they denote, so the sort key of SAR results is the instant.  The
    catalogue itself is a section variable. *)

Definition day : Z := 86400.

Definition timedelta_days (n : Z) : Z := (n * day)%Z.

Definition strftime_date (t : Z) : Z := (t `div` day)%Z.

(** A STAC item as the catalogue returns it. *)
Record stac_item : Type := StacItem {
  id : string;
  collection_id : string;
  datetime : option Z;
  eo_cloud_cover : option Q
}.

(** The simplified dictionary [search_imagery] builds for each item. *)
Record item_info : Type := ItemInfo {
  info_id : string;
  info_collection : string;
  info_datetime : option Z;
  info_cloud_cover : option Q;
  info_item : stac_item
}.

Record search_params : Type := SearchParams {
  param_bbox : list Q;
  param_datetime : Z * Z;
  param_collections : list string;
  param_limit : nat;
  param_cloud_cover_lt : option Q
}.

(** ["sentinel-2" in str(collections)] *)
Definition mentions_sentinel2 (collections : list string) : bool :=
  existsb (ML.contains "sentinel-2") collections.

(** A stable sort by key; the key comparison is [leb]. *)
Fixpoint insert_by {A K} (leb : K -> K -> bool) (key : A -> K) (x : A) (l : list A)
  : list A :=
  match l with
  | [] => [x]
  | y :: l' =>
      if leb (key x) (key y) then x :: y :: l' else y :: insert_by leb key x l'
  end.

Definition sort_by {A K} (leb : K -> K -> bool) (key : A -> K) (l : list A) : list A :=
  fold_right (insert_by leb key) [] l.

(** [list.sort(key=...)] where a key may be [None]: ordering two keys one of
    which is [None] raises [TypeError], and with two elements or more every
    element is compared at least once. *)
Definition sort_optional {A K} (leb : K -> K -> bool) (key : A -> option K)
    (fallback : K) (l : list A) : result (list A) :=
  match l with
  | [] | [_] => ok l
  | _ =>
      if forallb (fun x => bool_decide (is_Some (key x))) l
      then ok (sort_by leb (fun x => default fallback (key x)) l)
      else raise (TypeError "'<' not supported between instances of 'NoneType'")
  end.

Section Service.
(** [self.catalog.search] on the parameters built below, then [.items()] *)
Variable catalog_search : search_params -> result (list stac_item).

Definition search_imagery (bbox : list Q) (date_from date_to : Z)
    (collections : list string) (cloud_cover_max : Q) (max_items : nat)
  : result (list item_info) :=
  let date_range := (strftime_date date_from, strftime_date date_to) in
  let search_params :=
    SearchParams bbox date_range collections max_items
      (if mentions_sentinel2 collections then Some cloud_cover_max else None) in
  items ← catalog_search search_params;
  let results :=
    List.map (fun item =>
                ItemInfo (id item) (collection_id item) (datetime item)
                         (eo_cloud_cover item) item) items in
  if mentions_sentinel2 collections
  then sort_optional Qle_bool info_cloud_cover 100%Q results
  else sort_optional Z.leb info_datetime 0%Z results.

Definition get_best_imagery_pair (bbox : list Q) (date_from date_to : Z)
    (cloud_cover_max : Q)
  : result (option item_info * option item_info * string) :=
  before_search ← search_imagery bbox
    (date_from - timedelta_days 7) (date_from + timedelta_days 7)
    ["sentinel-2-l2a"] cloud_cover_max 5;
  after_search ← search_imagery bbox
    (date_to - timedelta_days 7) (date_to + timedelta_days 7)
    ["sentinel-2-l2a"] cloud_cover_max 5;
  match before_search, after_search with
  | b :: _, a :: _ => ok (Some b, Some a, "sentinel-2")
  | _, _ =>
      before_sar ← search_imagery bbox
        (date_from - timedelta_days 10) (date_from + timedelta_days 10)
        ["sentinel-1-grd"] 20 5;
      after_sar ← search_imagery bbox
        (date_to - timedelta_days 10) (date_to + timedelta_days 10)
        ["sentinel-1-grd"] 20 5;
      match before_sar, after_sar with
      | b :: _, a :: _ => ok (Some b, Some a, "sentinel-1")
      | _, _ => ok (None, None, "none")
      end
  end.
End Service.

(** *** A small instance

    A catalogue holding one Sentinel-2 acquisition, taken on day 103.  The
    job asks for day 100 to day 105, so the acquisition falls in both
    seven-day windows. *)

Definition demo_item : stac_item :=
  StacItem "S2A_MSIL2A_T43QBB" "sentinel-2-l2a" (Some (103 * day)%Z) (Some 5%Q).

Definition item_in_range (p : search_params) (item : stac_item) : bool :=
  bool_decide (collection_id item ∈ param_collections p) &&
  match datetime item with
  | Some t => ((fst (param_datetime p) <=? strftime_date t) &&
               (strftime_date t <=? snd (param_datetime p)))%Z
  | None => false
  end &&
  match param_cloud_cover_lt p, eo_cloud_cover item with
  | Some bound, Some c => Qltb c bound
  | Some _, None => false
  | None, _ => true
  end.

Definition demo_catalog (p : search_params) : result (list stac_item) :=
  ok (take (param_limit p) (List.filter (item_in_range p) [demo_item])).

Definition demo_info : item_info :=
  ItemInfo "S2A_MSIL2A_T43QBB" "sentinel-2-l2a" (Some (103 * day)%Z) (Some 5%Q) demo_item.

Definition demo_bbox : list Q := [72.8; 19.0; 72.9; 19.1]%Q.

(** *** Properties of pair selection *)

(** C8, as stated, fails.  Both windows of the demo search resolve to the
    same acquisition, and the pair made of it twice is returned. *)
Lemma same_acquisition_is_returned :
  match get_best_imagery_pair demo_catalog demo_bbox (100 * day) (105 * day) 20 with
  | inr (Some before_image, Some after_image, satellite_type) =>
      info_id before_image = info_id after_image /\ satellite_type = "sentinel-2"
  | _ => False
  end.
Proof. vm_compute. split; reflexivity. Qed.

(** C8, amended.  Whenever both optical windows yield candidates, the first
    candidate of each is returned as the pair, tagged [sentinel-2]; the two
    are not compared, so they may be one and the same acquisition. *)
Theorem optical_pair_returned_unchecked
    (catalog_search : search_params -> result (list stac_item))
    (bbox : list Q) (date_from date_to : Z) (cloud_cover_max : Q)
    (b a : item_info) (bs as_ : list item_info) :
  search_imagery catalog_search bbox
    (date_from - timedelta_days 7) (date_from + timedelta_days 7)
    ["sentinel-2-l2a"] cloud_cover_max 5 = ok (b :: bs) ->
  search_imagery catalog_search bbox
    (date_to - timedelta_days 7) (date_to + timedelta_days 7)
    ["sentinel-2-l2a"] cloud_cover_max 5 = ok (a :: as_) ->
  get_best_imagery_pair catalog_search bbox date_from date_to cloud_cover_max
    = ok (Some b, Some a, "sentinel-2").
Proof.
  intros Hb Ha. unfold get_best_imagery_pair. by rewrite Hb, Ha.
Qed.

Lemma optical_pair_returned_unchecked_witness :
  get_best_imagery_pair demo_catalog demo_bbox (100 * day) (105 * day) 20
    = ok (Some demo_info, Some demo_info, "sentinel-2").
Proof.
  apply (optical_pair_returned_unchecked demo_catalog demo_bbox (100 * day) (105 * day)
           20 demo_info demo_info [] []).
  - vm_compute. reflexivity.
  - vm_compute. reflexivity.
Defined.

(** *** Further properties of search and pair selection *)

Section Sorting.
Context {A K : Type}.
Variable leb : K -> K -> bool.
Variable key : A -> K.
Hypothesis leb_total : forall a b, leb a b = false -> leb b a = true.
Hypothesis leb_trans : forall a b c, leb a b = true -> leb b c = true -> leb a c = true.

Definition key_le (x y : A) : Prop := leb (key x) (key y) = true.

Lemma insert_by_perm x l : insert_by leb key x l ≡ₚ x :: l.
Proof.
  induction l as [| y l IH]; simpl; [reflexivity |].
  destruct (leb (key x) (key y)); [reflexivity |].
  rewrite IH. apply perm_swap.
Qed.

Lemma sort_by_perm l : sort_by leb key l ≡ₚ l.
Proof.
  induction l as [| x l IH]; [reflexivity |].
  unfold sort_by in *. simpl. rewrite insert_by_perm. by constructor.
Qed.

Lemma insert_by_sorted x l :
  StronglySorted key_le l -> StronglySorted key_le (insert_by leb key x l).
Proof.
  induction 1 as [| y l Hs IH Hy]; simpl.
  - repeat constructor.
  - destruct (leb (key x) (key y)) eqn:E.
    + constructor; [by constructor |]. constructor; [exact E |].
      eapply Forall_impl; [exact Hy |]. intros z Hz. by eapply leb_trans.
    + constructor; [exact IH |].
      rewrite (insert_by_perm x l). constructor; [by apply leb_total | exact Hy].
Qed.

Lemma sort_by_sorted l : StronglySorted key_le (sort_by leb key l).
Proof.
  induction l as [| x l IH]; [constructor |].
  unfold sort_by in *. simpl. by apply insert_by_sorted.
Qed.

End Sorting.

Lemma Qle_bool_total a b : Qle_bool a b = false -> Qle_bool b a = true.
Proof.
  intros H. apply Qle_bool_iff.
  destruct (Qlt_le_dec b a) as [Hlt | Hle]; [by apply Qlt_le_weak |].
  apply Qle_bool_iff in Hle. congruence.
Qed.

Lemma Qle_bool_trans a b c :
  Qle_bool a b = true -> Qle_bool b c = true -> Qle_bool a c = true.
Proof. rewrite !Qle_bool_iff. apply Qle_trans. Qed.

Lemma Zleb_total a b : (a <=? b)%Z = false -> (b <=? a)%Z = true.
Proof. intros H. apply Z.leb_gt in H. apply Z.leb_le. lia. Qed.

Lemma Zleb_trans a b c :
  (a <=? b)%Z = true -> (b <=? c)%Z = true -> (a <=? c)%Z = true.
Proof. rewrite !Z.leb_le. lia. Qed.

(** The dictionary [search_imagery] builds for one item. *)
Definition item_info_of (item : stac_item) : item_info :=
  ItemInfo (id item) (collection_id item) (datetime item) (eo_cloud_cover item) item.

Definition cloud_key (x : item_info) : Q := default 100%Q (info_cloud_cover x).
Definition datetime_key (x : item_info) : Z := default 0%Z (info_datetime x).

Lemma sort_optional_all_some {A K} (leb : K -> K -> bool) (key : A -> option K)
    (fallback : K) (l : list A) :
  (forall a b, leb a b = false -> leb b a = true) ->
  (forall a b c, leb a b = true -> leb b c = true -> leb a c = true) ->
  Forall (fun x => is_Some (key x)) l ->
  exists sorted,
    sort_optional leb key fallback l = ok sorted /\
    sorted ≡ₚ l /\
    StronglySorted (key_le leb (fun x => default fallback (key x))) sorted.
Proof.
  intros Htot Htrans Hall. unfold sort_optional.
  destruct l as [| x [| y l]].
  - exists []. repeat split; constructor.
  - exists [x]. repeat split; repeat constructor.
  - assert (E : forallb (fun x => bool_decide (is_Some (key x))) (x :: y :: l) = true).
    { apply forallb_forall. intros z Hz. apply bool_decide_eq_true.
      rewrite Forall_forall in Hall. apply Hall. by apply list_elem_of_In. }
    rewrite E. eexists. split; [reflexivity |]. split.
    + apply sort_by_perm.
    + by apply sort_by_sorted.
Qed.

Lemma sort_optional_missing_key {A K} (leb : K -> K -> bool) (key : A -> option K)
    (fallback : K) (l : list A) :
  (2 <= length l)%nat ->
  Exists (fun x => key x = None) l ->
  sort_optional leb key fallback l
    = raise (TypeError "'<' not supported between instances of 'NoneType'").
Proof.
  intros Hlen Hex. unfold sort_optional.
  destruct l as [| x [| y l]]; [simpl in Hlen; lia | simpl in Hlen; lia |].
  destruct (forallb _ _) eqn:E; [| reflexivity].
  rewrite forallb_forall in E. apply Exists_exists in Hex.
  destruct Hex as [z [Hz Hnone]]. apply list_elem_of_In in Hz.
  specialize (E z Hz). apply bool_decide_eq_true in E. rewrite Hnone in E.
  by destruct E.
Qed.

Section ServiceFacts.
Variable catalog_search : search_params -> result (list stac_item).

Lemma search_imagery_optical bbox date_from date_to collections cloud_cover_max max_items
    items :
  mentions_sentinel2 collections = true ->
  catalog_search
    (SearchParams bbox (strftime_date date_from, strftime_date date_to) collections
       max_items (Some cloud_cover_max)) = ok items ->
  search_imagery catalog_search bbox date_from date_to collections cloud_cover_max max_items
    = sort_optional Qle_bool info_cloud_cover 100%Q (List.map item_info_of items).
Proof.
  intros Hm Hc. unfold search_imagery. rewrite Hm, Hc. reflexivity.
Qed.

Lemma search_imagery_sar bbox date_from date_to collections cloud_cover_max max_items
    items :
  mentions_sentinel2 collections = false ->
  catalog_search
    (SearchParams bbox (strftime_date date_from, strftime_date date_to) collections
       max_items None) = ok items ->
  search_imagery catalog_search bbox date_from date_to collections cloud_cover_max max_items
    = sort_optional Z.leb info_datetime 0%Z (List.map item_info_of items).
Proof.
  intros Hm Hc. unfold search_imagery. rewrite Hm, Hc. reflexivity.
Qed.

End ServiceFacts.

Lemma StronglySorted_weaken {A} (R R' : A -> A -> Prop) l :
  (forall x y, R x y -> R' x y) -> StronglySorted R l -> StronglySorted R' l.
Proof.
  intros HR. induction 1 as [| x l Hs IH Hx]; constructor; [exact IH |].
  eapply Forall_impl; [exact Hx | auto].
Qed.

Lemma sorted_head_least {A} (R : A -> A -> Prop) (l0 : list A) x l :
  (forall y, R y y) ->
  StronglySorted R (x :: l) -> x :: l ≡ₚ l0 -> Forall (R x) l0.
Proof.
  intros Hrefl Hs Hp. rewrite <- Hp. inversion Hs; subst. by constructor.
Qed.

Lemma search_optical_sorted catalog_search bbox date_from date_to collections
    cloud_cover_max max_items items :
  mentions_sentinel2 collections = true ->
  catalog_search
    (SearchParams bbox (strftime_date date_from, strftime_date date_to) collections
       max_items (Some cloud_cover_max)) = ok items ->
  Forall (fun item => is_Some (eo_cloud_cover item)) items ->
  exists results,
    search_imagery catalog_search bbox date_from date_to collections cloud_cover_max
      max_items = ok results /\
    results ≡ₚ List.map item_info_of items /\
    StronglySorted (fun a b => (cloud_key a <= cloud_key b)%Q) results.
Proof.
  intros Hm Hc Hall. rewrite (search_imagery_optical _ _ _ _ _ _ _ _ Hm Hc).
  destruct (sort_optional_all_some Qle_bool info_cloud_cover 100%Q
              (List.map item_info_of items) Qle_bool_total Qle_bool_trans)
    as (sorted & Hs & Hp & Hsorted).
  { apply Forall_forall. intros x Hx. apply list_elem_of_In, in_map_iff in Hx.
    destruct Hx as [item [<- Hitem]]. rewrite Forall_forall in Hall.
    apply Hall. by apply list_elem_of_In. }
  exists sorted. split; [exact Hs |]. split; [exact Hp |].
  eapply StronglySorted_weaken; [| exact Hsorted].
  intros x y Hxy. by apply Qle_bool_iff.
Qed.

Lemma search_sar_sorted catalog_search bbox date_from date_to collections
    cloud_cover_max max_items items :
  mentions_sentinel2 collections = false ->
  catalog_search
    (SearchParams bbox (strftime_date date_from, strftime_date date_to) collections
       max_items None) = ok items ->
  Forall (fun item => is_Some (datetime item)) items ->
  exists results,
    search_imagery catalog_search bbox date_from date_to collections cloud_cover_max
      max_items = ok results /\
    results ≡ₚ List.map item_info_of items /\
    StronglySorted (fun a b => (datetime_key a <= datetime_key b)%Z) results.
Proof.
  intros Hm Hc Hall. rewrite (search_imagery_sar _ _ _ _ _ _ _ _ Hm Hc).
  destruct (sort_optional_all_some Z.leb info_datetime 0%Z
              (List.map item_info_of items) Zleb_total Zleb_trans)
    as (sorted & Hs & Hp & Hsorted).
  { apply Forall_forall. intros x Hx. apply list_elem_of_In, in_map_iff in Hx.
    destruct Hx as [item [<- Hitem]]. rewrite Forall_forall in Hall.
    apply Hall. by apply list_elem_of_In. }
  exists sorted. split; [exact Hs |]. split; [exact Hp |].
  eapply StronglySorted_weaken; [| exact Hsorted].
  intros x y Hxy. by apply Z.leb_le.
Qed.

(** The first of a sorted search result, for a catalogue answer that is not
    empty. *)
Lemma sorted_search_head {key_rel : item_info -> item_info -> Prop} results items :
  (forall x, key_rel x x) ->
  items <> [] ->
  results ≡ₚ List.map item_info_of items ->
  StronglySorted key_rel results ->
  exists first rest,
    results = first :: rest /\
    info_item first ∈ items /\
    Forall (fun item => key_rel first (item_info_of item)) items.
Proof.
  intros Hrefl Hne Hp Hs. destruct results as [| first rest].
  { apply Permutation_nil in Hp. destruct items; [congruence | discriminate]. }
  exists first, rest. split; [reflexivity |].
  pose proof (sorted_head_least _ _ _ _ Hrefl Hs Hp) as Hleast.
  split.
  - assert (Hin : first ∈ List.map item_info_of items) by (rewrite <- Hp; left).
    apply list_elem_of_In, in_map_iff in Hin. destruct Hin as [item [<- Hitem]].
    by apply list_elem_of_In.
  - apply Forall_forall. intros item Hitem. rewrite Forall_forall in Hleast.
    apply Hleast. apply list_elem_of_In, in_map_iff. exists item.
    split; [reflexivity | by apply list_elem_of_In].
Qed.

Definition optical_window (bbox : list Q) (target : Z) (cloud_cover_max : Q)
  : search_params :=
  SearchParams bbox
    (strftime_date (target - timedelta_days 7), strftime_date (target + timedelta_days 7))
    ["sentinel-2-l2a"] 5 (Some cloud_cover_max).

Definition sar_window (bbox : list Q) (target : Z) : search_params :=
  SearchParams bbox
    (strftime_date (target - timedelta_days 10), strftime_date (target + timedelta_days 10))
    ["sentinel-1-grd"] 5 None.

(** *** A catalogue with several acquisitions

    Two Sentinel-2 acquisitions near day 100 and two near day 160, and two
    Sentinel-1 acquisitions near each date. *)

Definition demo_s2_hazy : stac_item :=
  StacItem "S2A_T43QBB_099" "sentinel-2-l2a" (Some (99 * day)%Z) (Some 12%Q).
Definition demo_s2_clear : stac_item :=
  StacItem "S2B_T43QBB_101" "sentinel-2-l2a" (Some (101 * day)%Z) (Some 3%Q).
Definition demo_s2_later : stac_item :=
  StacItem "S2A_T43QBB_158" "sentinel-2-l2a" (Some (158 * day)%Z) (Some 8%Q).
Definition demo_s2_latest : stac_item :=
  StacItem "S2B_T43QBB_161" "sentinel-2-l2a" (Some (161 * day)%Z) (Some 1%Q).
Definition demo_s2_unrated : stac_item :=
  StacItem "S2B_T43QBB_102" "sentinel-2-l2a" (Some (102 * day)%Z) None.

Definition demo_s1_102 : stac_item :=
  StacItem "S1A_IW_GRDH_102" "sentinel-1-grd" (Some (102 * day)%Z) None.
Definition demo_s1_098 : stac_item :=
  StacItem "S1A_IW_GRDH_098" "sentinel-1-grd" (Some (98 * day)%Z) None.
Definition demo_s1_163 : stac_item :=
  StacItem "S1A_IW_GRDH_163" "sentinel-1-grd" (Some (163 * day)%Z) None.
Definition demo_s1_157 : stac_item :=
  StacItem "S1A_IW_GRDH_157" "sentinel-1-grd" (Some (157 * day)%Z) None.

Definition catalog_of (archive : list stac_item) (p : search_params)
  : result (list stac_item) :=
  ok (take (param_limit p) (List.filter (item_in_range p) archive)).

Definition demo_optical_archive : list stac_item :=
  [demo_s2_hazy; demo_s2_clear; demo_s2_later; demo_s2_latest].

Definition demo_sar_archive : list stac_item :=
  [demo_s1_102; demo_s1_098; demo_s1_163; demo_s1_157].

(** X12.  Whenever the catalogue answers and every returned item carries the
    sort key of its family (cloud cover for a Sentinel-2 search, acquisition
    time otherwise), [search_imagery] returns exactly the catalogue's items,
    none dropped or added, in non-decreasing order of that key. *)
Theorem search_imagery_sorted
    (catalog_search : search_params -> result (list stac_item))
    (bbox : list Q) (date_from date_to : Z) (collections : list string)
    (cloud_cover_max : Q) (max_items : nat) (items : list stac_item) :
  catalog_search
    (SearchParams bbox (strftime_date date_from, strftime_date date_to) collections
       max_items (if mentions_sentinel2 collections then Some cloud_cover_max else None))
    = ok items ->
  Forall (fun item => if mentions_sentinel2 collections
                      then is_Some (eo_cloud_cover item)
                      else is_Some (datetime item)) items ->
  exists results,
    search_imagery catalog_search bbox date_from date_to collections cloud_cover_max
      max_items = ok results /\
    results ≡ₚ List.map item_info_of items /\
    if mentions_sentinel2 collections
    then StronglySorted (fun a b => (cloud_key a <= cloud_key b)%Q) results
    else StronglySorted (fun a b => (datetime_key a <= datetime_key b)%Z) results.
Proof.
  intros Hc Hall. destruct (mentions_sentinel2 collections) eqn:Hm.
  - by apply search_optical_sorted.
  - by apply search_sar_sorted.
Qed.

Lemma search_imagery_sorted_witness :
  exists results,
    search_imagery (catalog_of demo_optical_archive) demo_bbox (93 * day) (107 * day)
      ["sentinel-2-l2a"] 20 5 = ok results /\
    results ≡ₚ List.map item_info_of [demo_s2_hazy; demo_s2_clear] /\
    StronglySorted (fun a b => (cloud_key a <= cloud_key b)%Q) results.
Proof.
  apply (search_imagery_sorted (catalog_of demo_optical_archive) demo_bbox
           (93 * day) (107 * day) ["sentinel-2-l2a"] 20 5 [demo_s2_hazy; demo_s2_clear]).
  - vm_compute. reflexivity.
  - repeat constructor; by eexists.
Defined.


(** X13.  When both optical windows of [get_best_imagery_pair] yield items
    that all carry a cloud cover, the pair returned is tagged [sentinel-2] and
    each of its images is an item of its window whose cloud cover is the least
    of that window. *)
Theorem best_optical_pair_least_cloud
    (catalog_search : search_params -> result (list stac_item))
    (bbox : list Q) (date_from date_to : Z) (cloud_cover_max : Q)
    (items_before items_after : list stac_item) :
  catalog_search (optical_window bbox date_from cloud_cover_max) = ok items_before ->
  catalog_search (optical_window bbox date_to cloud_cover_max) = ok items_after ->
  items_before <> [] -> items_after <> [] ->
  Forall (fun item => is_Some (eo_cloud_cover item)) items_before ->
  Forall (fun item => is_Some (eo_cloud_cover item)) items_after ->
  exists before_image after_image,
    get_best_imagery_pair catalog_search bbox date_from date_to cloud_cover_max
      = ok (Some before_image, Some after_image, "sentinel-2") /\
    info_item before_image ∈ items_before /\
    info_item after_image ∈ items_after /\
    Forall (fun item => (cloud_key before_image <= cloud_key (item_info_of item))%Q)
           items_before /\
    Forall (fun item => (cloud_key after_image <= cloud_key (item_info_of item))%Q)
           items_after.
Proof.
  intros Hb Ha Hnb Hna Hcb Hca.
  destruct (search_optical_sorted catalog_search bbox _ _ ["sentinel-2-l2a"] cloud_cover_max 5
              items_before eq_refl Hb Hcb) as (rb & Hrb & Hpb & Hsb).
  destruct (search_optical_sorted catalog_search bbox _ _ ["sentinel-2-l2a"] cloud_cover_max 5
              items_after eq_refl Ha Hca) as (ra & Hra & Hpa & Hsa).
  destruct (sorted_search_head rb items_before (fun x => Qle_refl _) Hnb Hpb Hsb)
    as (b & bs & -> & Hbin & Hbleast).
  destruct (sorted_search_head ra items_after (fun x => Qle_refl _) Hna Hpa Hsa)
    as (a & as_ & -> & Hain & Haleast).
  exists b, a. split; [| by repeat split].
  unfold get_best_imagery_pair. by rewrite Hrb, Hra.
Qed.

Lemma best_optical_pair_least_cloud_witness :
  exists before_image after_image,
    get_best_imagery_pair (catalog_of demo_optical_archive) demo_bbox
        (100 * day) (160 * day) 20
      = ok (Some before_image, Some after_image, "sentinel-2") /\
    info_item before_image ∈ [demo_s2_hazy; demo_s2_clear] /\
    info_item after_image ∈ [demo_s2_later; demo_s2_latest] /\
    Forall (fun item => (cloud_key before_image <= cloud_key (item_info_of item))%Q)
           [demo_s2_hazy; demo_s2_clear] /\
    Forall (fun item => (cloud_key after_image <= cloud_key (item_info_of item))%Q)
           [demo_s2_later; demo_s2_latest].
Proof.
  apply (best_optical_pair_least_cloud (catalog_of demo_optical_archive) demo_bbox
           (100 * day) (160 * day) 20).
  - vm_compute. reflexivity.
  - vm_compute. reflexivity.
  - discriminate.
  - discriminate.
  - repeat constructor; by eexists.
  - repeat constructor; by eexists.
Defined.

(** X14.  When both optical windows are empty and both ten-day Sentinel-1
    windows yield dated items, the pair returned is tagged [sentinel-1] and
    each of its images is the earliest acquisition of its window. *)
Theorem sar_fallback_earliest_pair
    (catalog_search : search_params -> result (list stac_item))
    (bbox : list Q) (date_from date_to : Z) (cloud_cover_max : Q)
    (items_before items_after : list stac_item) :
  catalog_search (optical_window bbox date_from cloud_cover_max) = ok [] ->
  catalog_search (optical_window bbox date_to cloud_cover_max) = ok [] ->
  catalog_search (sar_window bbox date_from) = ok items_before ->
  catalog_search (sar_window bbox date_to) = ok items_after ->
  items_before <> [] -> items_after <> [] ->
  Forall (fun item => is_Some (datetime item)) items_before ->
  Forall (fun item => is_Some (datetime item)) items_after ->
  exists before_image after_image,
    get_best_imagery_pair catalog_search bbox date_from date_to cloud_cover_max
      = ok (Some before_image, Some after_image, "sentinel-1") /\
    info_item before_image ∈ items_before /\
    info_item after_image ∈ items_after /\
    Forall (fun item => (datetime_key before_image <= datetime_key (item_info_of item))%Z)
           items_before /\
    Forall (fun item => (datetime_key after_image <= datetime_key (item_info_of item))%Z)
           items_after.
Proof.
  intros Hob Hoa Hb Ha Hnb Hna Hdb Hda.
  destruct (search_sar_sorted catalog_search bbox _ _ ["sentinel-1-grd"] 20 5
              items_before eq_refl Hb Hdb) as (rb & Hrb & Hpb & Hsb).
  destruct (search_sar_sorted catalog_search bbox _ _ ["sentinel-1-grd"] 20 5
              items_after eq_refl Ha Hda) as (ra & Hra & Hpa & Hsa).
  destruct (sorted_search_head rb items_before (fun x => Z.le_refl _) Hnb Hpb Hsb)
    as (b & bs & -> & Hbin & Hbleast).
  destruct (sorted_search_head ra items_after (fun x => Z.le_refl _) Hna Hpa Hsa)
    as (a & as_ & -> & Hain & Haleast).
  exists b, a. split; [| by repeat split].
  unfold get_best_imagery_pair.
  rewrite (search_imagery_optical catalog_search bbox _ _ ["sentinel-2-l2a"]
             cloud_cover_max 5 [] eq_refl Hob).
  rewrite (search_imagery_optical catalog_search bbox _ _ ["sentinel-2-l2a"]
             cloud_cover_max 5 [] eq_refl Hoa).
  cbn [List.map sort_optional mbind result_bind ok].
  by rewrite Hrb, Hra.
Qed.

Lemma sar_fallback_earliest_pair_witness :
  exists before_image after_image,
    get_best_imagery_pair (catalog_of demo_sar_archive) demo_bbox
        (100 * day) (160 * day) 20
      = ok (Some before_image, Some after_image, "sentinel-1") /\
    info_item before_image ∈ [demo_s1_102; demo_s1_098] /\
    info_item after_image ∈ [demo_s1_163; demo_s1_157] /\
    Forall (fun item => (datetime_key before_image <= datetime_key (item_info_of item))%Z)
           [demo_s1_102; demo_s1_098] /\
    Forall (fun item => (datetime_key after_image <= datetime_key (item_info_of item))%Z)
           [demo_s1_163; demo_s1_157].
Proof.
  apply (sar_fallback_earliest_pair (catalog_of demo_sar_archive) demo_bbox
           (100 * day) (160 * day) 20).
  - vm_compute. reflexivity.
  - vm_compute. reflexivity.
  - vm_compute. reflexivity.
  - vm_compute. reflexivity.
  - discriminate.
  - discriminate.
  - repeat constructor; by eexists.
  - repeat constructor; by eexists.
Defined.

(** X15.  If an optical search yields two items or more and one of them has no
    [eo:cloud_cover] property, [search_imagery] raises [TypeError] from the
    sort: the key is present with value [None], so the default of 100 is never
    used. *)
Theorem search_imagery_missing_cloud_cover
    (catalog_search : search_params -> result (list stac_item))
    (bbox : list Q) (date_from date_to : Z) (collections : list string)
    (cloud_cover_max : Q) (max_items : nat) (items : list stac_item) :
  mentions_sentinel2 collections = true ->
  catalog_search
    (SearchParams bbox (strftime_date date_from, strftime_date date_to) collections
       max_items (Some cloud_cover_max)) = ok items ->
  (2 <= length items)%nat ->
  Exists (fun item => eo_cloud_cover item = None) items ->
  search_imagery catalog_search bbox date_from date_to collections cloud_cover_max max_items
    = raise (TypeError "'<' not supported between instances of 'NoneType'").
Proof.
  intros Hm Hc Hlen Hex. rewrite (search_imagery_optical _ _ _ _ _ _ _ _ Hm Hc).
  apply sort_optional_missing_key.
  - by rewrite length_map.
  - apply Exists_exists in Hex. destruct Hex as [item [Hin Hnone]].
    apply Exists_exists. exists (item_info_of item). split; [| exact Hnone].
    apply list_elem_of_In, in_map_iff. exists item.
    split; [reflexivity | by apply list_elem_of_In].
Qed.

Lemma search_imagery_missing_cloud_cover_witness :
  search_imagery (fun _ => ok [demo_s2_clear; demo_s2_unrated]) demo_bbox
      (93 * day) (107 * day) ["sentinel-2-l2a"] 20 5
    = raise (TypeError "'<' not supported between instances of 'NoneType'").
Proof.
  apply (search_imagery_missing_cloud_cover (fun _ => ok [demo_s2_clear; demo_s2_unrated])
           demo_bbox (93 * day) (107 * day) ["sentinel-2-l2a"] 20 5
           [demo_s2_clear; demo_s2_unrated]).
  - reflexivity.
  - reflexivity.
  - simpl. lia.
  - right. left. reflexivity.
Defined.

Lemma sort_optional_ok_perm {A K} (leb : K -> K -> bool) (key : A -> option K)
    (fallback : K) (l sorted : list A) :
  sort_optional leb key fallback l = ok sorted -> sorted ≡ₚ l.
Proof.
  unfold sort_optional. destruct l as [| x [| y l]].
  - by intros [= <-].
  - by intros [= <-].
  - destruct (forallb _ _); [| discriminate]. intros [= <-].
    apply (sort_by_perm leb (fun x => default fallback (key x)) (x :: y :: l)).
Qed.

Lemma search_imagery_ok_inv catalog_search bbox date_from date_to collections
    cloud_cover_max max_items results :
  search_imagery catalog_search bbox date_from date_to collections cloud_cover_max
    max_items = ok results ->
  exists items,
    catalog_search
      (SearchParams bbox (strftime_date date_from, strftime_date date_to) collections
         max_items (if mentions_sentinel2 collections then Some cloud_cover_max else None))
      = ok items /\
    results ≡ₚ List.map item_info_of items.
Proof.
  unfold search_imagery. destruct (catalog_search _) as [e | items]; [discriminate |].
  cbn [mbind result_bind]. intros H. exists items. split; [reflexivity |].
  destruct (mentions_sentinel2 collections); by apply sort_optional_ok_perm in H.
Qed.

Lemma perm_map_nil {A B} (f : A -> B) (l : list A) : [] ≡ₚ List.map f l -> l = [].
Proof.
  intros H. apply Permutation_length in H. rewrite length_map in H.
  destruct l; [reflexivity | discriminate].
Qed.

(** X16.  [get_best_imagery_pair] returns [(None, None, "none")] only if all
    four catalogue queries answered and, for each satellite family, at least
    one of its two windows held no item. *)
Theorem no_pair_only_when_windows_empty
    (catalog_search : search_params -> result (list stac_item))
    (bbox : list Q) (date_from date_to : Z) (cloud_cover_max : Q) :
  get_best_imagery_pair catalog_search bbox date_from date_to cloud_cover_max
    = ok (None, None, "none") ->
  exists optical_before optical_after sar_before sar_after,
    catalog_search (optical_window bbox date_from cloud_cover_max) = ok optical_before /\
    catalog_search (optical_window bbox date_to cloud_cover_max) = ok optical_after /\
    catalog_search (sar_window bbox date_from) = ok sar_before /\
    catalog_search (sar_window bbox date_to) = ok sar_after /\
    (optical_before = [] \/ optical_after = []) /\
    (sar_before = [] \/ sar_after = []).
Proof.
  unfold get_best_imagery_pair. intros H.
  destruct (search_imagery catalog_search bbox (date_from - timedelta_days 7) _ _ _ _)
    as [e | ob] eqn:E1; [discriminate |].
  destruct (search_imagery catalog_search bbox (date_to - timedelta_days 7) _ _ _ _)
    as [e | oa] eqn:E2; [discriminate |].
  cbn [mbind result_bind] in H.
  assert (Hsar :
    (ob = [] \/ oa = []) /\
    (before_sar ← search_imagery catalog_search bbox
        (date_from - timedelta_days 10) (date_from + timedelta_days 10)
        ["sentinel-1-grd"] 20 5;
     after_sar ← search_imagery catalog_search bbox
        (date_to - timedelta_days 10) (date_to + timedelta_days 10)
        ["sentinel-1-grd"] 20 5;
     match before_sar, after_sar with
     | b :: _, a :: _ => ok (Some b, Some a, "sentinel-1")
     | _, _ => ok (None, None, "none")
     end) = ok (None, None, "none")).
  { destruct ob as [| b ob]; [split; [by left | exact H] |].
    destruct oa as [| a oa]; [split; [by right | exact H] |]. discriminate. }
  clear H. destruct Hsar as [Hopt H].
  destruct (search_imagery catalog_search bbox (date_from - timedelta_days 10) _ _ _ _)
    as [e | sb] eqn:E3; [discriminate |].
  destruct (search_imagery catalog_search bbox (date_to - timedelta_days 10) _ _ _ _)
    as [e | sa] eqn:E4; [discriminate |].
  cbn [mbind result_bind] in H.
  assert (Hs : sb = [] \/ sa = []).
  { destruct sb as [| b sb]; [by left |]. destruct sa as [| a sa]; [by right |].
    discriminate. }
  apply search_imagery_ok_inv in E1, E2, E3, E4.
  destruct E1 as (i1 & Hc1 & Hp1). destruct E2 as (i2 & Hc2 & Hp2).
  destruct E3 as (i3 & Hc3 & Hp3). destruct E4 as (i4 & Hc4 & Hp4).
  exists i1, i2, i3, i4. repeat split; try assumption.
  - destruct Hopt as [-> | ->]; [left | right]; by eapply perm_map_nil.
  - destruct Hs as [-> | ->]; [left | right]; by eapply perm_map_nil.
Qed.

Lemma no_pair_only_when_windows_empty_witness :
  exists optical_before optical_after sar_before sar_after,
    catalog_of [demo_s2_hazy; demo_s1_163] (optical_window demo_bbox (100 * day) 20)
      = ok optical_before /\
    catalog_of [demo_s2_hazy; demo_s1_163] (optical_window demo_bbox (160 * day) 20)
      = ok optical_after /\
    catalog_of [demo_s2_hazy; demo_s1_163] (sar_window demo_bbox (100 * day))
      = ok sar_before /\
    catalog_of [demo_s2_hazy; demo_s1_163] (sar_window demo_bbox (160 * day))
      = ok sar_after /\
    (optical_before = [] \/ optical_after = []) /\
    (sar_before = [] \/ sar_after = []).
Proof.
  apply (no_pair_only_when_windows_empty (catalog_of [demo_s2_hazy; demo_s1_163]) demo_bbox
           (100 * day) (160 * day) 20).
  vm_compute. reflexivity.
Defined.

End STAC.

Module Jobs.

(** *** The table [jobs], class [Job] and [JobService]

    [job_service.py] imports class [Job] of [app/models/models.py].  Of the
    columns that class maps, the service writes [status], [error_message]
    and [updated_at]; it never writes [result_url].  The class has no
    attribute [progress], [started_at], [completed_at], [result_cog_url] or
    [vector_results_url]: assigning one makes a plain attribute of the Python
    object, which no flush writes, and reading one that was not assigned
    raises [AttributeError].  The column [progress] of the table (migration
    001) is therefore out of the reach of the service.

    The database session is a table of rows, a clock read by
    [datetime.utcnow()], and the outcomes of the database calls still to
    come, one flag per query, commit or refresh ([true]: the call raises).
    [committed] keeps every table a commit has made durable, oldest first. *)

Inductive JobStatus : Type := PENDING | PROCESSING | COMPLETED | FAILED.

Global Instance JobStatus_eq_dec : EqDecision JobStatus.
Proof. solve_decision. Defined.

(** The mapped columns. *)
Record Job : Type := {
  status : JobStatus;
  error_message : option string;
  result_url : option string;
  updated_at : option Z
}.

Global Instance Job_eq_dec : EqDecision Job.
Proof. solve_decision. Defined.

(** A row of the table: the mapped columns and the column [progress]. *)
Record row : Type := {
  mapped : Job;
  row_progress : Z
}.

(** A value held by a plain attribute. *)
Inductive attr : Type :=
| AFloat (q : Q)
| AStr (s : string)
| ATime (t : Z).

(** A [Job] object: the values of its mapped attributes and its plain
    attributes.  A freshly loaded object has none of the latter. *)
Record instance : Type := {
  columns : Job;
  attrs : gmap string attr
}.

Definition getattr (job : instance) (name : string) : result attr :=
  match attrs job !! name with
  | Some v => ok v
  | None => raise (AttributeError ("'Job' object has no attribute '" +:+ name +:+ "'"))
  end.

Definition setattr (job : instance) (name : string) (v : attr) : instance :=
  {| columns := columns job; attrs := <[name := v]> (attrs job) |}.

Definition set_status (job : instance) (st : JobStatus) : instance :=
  {| columns := {| status := st; error_message := error_message (columns job);
                   result_url := result_url (columns job);
                   updated_at := updated_at (columns job) |};
     attrs := attrs job |}.

Definition set_error_message (job : instance) (msg : string) : instance :=
  {| columns := {| status := status (columns job); error_message := Some msg;
                   result_url := result_url (columns job);
                   updated_at := updated_at (columns job) |};
     attrs := attrs job |}.

Definition set_updated_at (job : instance) (t : Z) : instance :=
  {| columns := {| status := status (columns job);
                   error_message := error_message (columns job);
                   result_url := result_url (columns job);
                   updated_at := Some t |};
     attrs := attrs job |}.

(** The schema [JobStatusUpdate]; [status] is required. *)
Record JobStatusUpdate : Type := {
  su_status : JobStatus;
  su_progress : option Q;
  su_error_message : option string;
  su_result_cog_url : option string;
  su_vector_results_url : option string
}.

(** The field constraints of the schema, checked when it is built. *)
Definition validate (su : JobStatusUpdate) : result JobStatusUpdate :=
  let short (s : option string) :=
    match s with Some s => (String.length s <=? 500)%nat | None => true end in
  let in_range :=
    match su_progress su with
    | Some p => Qle_bool 0 p && Qle_bool p 100
    | None => true
    end in
  if in_range && short (su_error_message su) && short (su_result_cog_url su)
     && short (su_vector_results_url su)
  then ok su
  else raise (ValueError "validation error for JobStatusUpdate").

Record session : Type := {
  jobs : gmap Z row;
  clock : Z;
  db_raises : list bool;
  committed : list (gmap Z row)
}.

Definition action (A : Type) : Type := session -> result A * session.

Global Instance action_ret : MRet action := fun A a db => (inr a, db).
Global Instance action_bind : MBind action := fun A B k m db =>
  match m db with
  | (inl e, db') => (inl e, db')
  | (inr a, db') => k a db'
  end.

Definition lift {A} (r : result A) : action A := fun db => (r, db).

(** [try: ... except Exception: db.rollback(); return fallback].  What the
    body changed and did not commit lives in its [instance] only, so the
    rollback leaves the session as the body left it. *)
Definition catch {A} (fallback : A) (body : action A) : session -> A * session :=
  fun db =>
    match body db with
    | (inl _, db') => (fallback, db')
    | (inr a, db') => (a, db')
    end.

(** A function that does not raise, run inside an action. *)
Definition run {A} (f : session -> A * session) : action A :=
  fun db => let '(a, db') := f db in (inr a, db').

(** One call of the database: it raises when its flag says so. *)
Definition db_call : action unit :=
  fun db =>
    match db_raises db with
    | [] => (ok (), db)
    | fails :: rest =>
        (if fails : bool then raise (Exception "database error") else ok (),
         {| jobs := jobs db; clock := clock db; db_raises := rest;
            committed := committed db |})
    end.

Definition utcnow : action Z :=
  fun db =>
    (ok (clock db),
     {| jobs := jobs db; clock := (clock db + 1)%Z; db_raises := db_raises db;
        committed := committed db |}).

(** The object loaded for a row.  The session holds its objects weakly and
    no caller keeps a [Job] object from one call of the service to the next,
    so every query yields an object without plain attributes. *)
Definition load (r : row) : instance := {| columns := mapped r; attrs := ∅ |}.

Definition lookup_row (job_id : Z) : action (option row) :=
  fun db => (ok (jobs db !! job_id), db).

(** [db.query(Job).filter(Job.id == job_id).first()] *)
Definition query_first (job_id : Z) : action (option instance) :=
  _ ← db_call;
  r ← lookup_row job_id;
  mret (load <$> r).

(** [db.commit()] with [job] the one object that was changed.  The flush
    writes the mapped columns; when one of them changed and [updated_at] was
    not assigned, its [onupdate] sets it to the time of the flush.  The
    table is then durable. *)
Definition flush (job_id : Z) (job : instance) : action unit :=
  fun db =>
    match jobs db !! job_id with
    | None => (ok (), db)
    | Some r =>
        let onupdate :=
          negb (bool_decide (columns job = mapped r)) &&
          bool_decide (updated_at (columns job) = updated_at (mapped r)) in
        let written :=
          if onupdate
          then {| status := status (columns job);
                  error_message := error_message (columns job);
                  result_url := result_url (columns job);
                  updated_at := Some (clock db) |}
          else columns job in
        let table :=
          <[job_id := {| mapped := written; row_progress := row_progress r |}]> (jobs db) in
        (ok (),
         {| jobs := table;
            clock := if onupdate then (clock db + 1)%Z else clock db;
            db_raises := db_raises db;
            committed := committed db ++ [table] |})
    end.

Definition commit (job_id : Z) (job : instance) : action unit :=
  _ ← db_call;
  flush job_id job.

(** [db.refresh(job)]: the mapped attributes are loaded again. *)
Definition refresh (job_id : Z) (job : instance) : action instance :=
  _ ← db_call;
  r ← lookup_row job_id;
  match r with
  | Some r => mret {| columns := mapped r; attrs := attrs job |}
  | None => lift (raise (Exception "instance is not persistent"))
  end.

(** The timestamps of [update_job_status].  [job.started_at is None] and
    [job.completed_at is None] read a plain attribute; one that is found
    holds a time, so the test fails and nothing is assigned. *)
Definition stamp (job : instance) (st : JobStatus) : result instance :=
  match st with
  | PROCESSING => _ ← getattr job "started_at"; ok job
  | COMPLETED | FAILED => _ ← getattr job "completed_at"; ok job
  | PENDING => ok job
  end.

(** The assignments [update_job_status] makes from the fields of the update
    that are not [None]. *)
Definition assign (job : instance) (status_update : JobStatusUpdate) : instance :=
  let job := set_status job (su_status status_update) in
  let job :=
    match su_progress status_update with
    | Some p => setattr job "progress" (AFloat p)
    | None => job
    end in
  let job :=
    match su_error_message status_update with
    | Some m => set_error_message job m
    | None => job
    end in
  let job :=
    match su_result_cog_url status_update with
    | Some u => setattr job "result_cog_url" (AStr u)
    | None => job
    end in
  match su_vector_results_url status_update with
  | Some u => setattr job "vector_results_url" (AStr u)
  | None => job
  end.

(** The [try] block of [update_job_status]. *)
Definition update_try (job_id : Z) (status_update : JobStatusUpdate)
  : action (option instance) :=
  found ← query_first job_id;
  match found with
  | None => mret None
  | Some job =>
      let job := assign job status_update in
      current_time ← utcnow;
      job ← lift (stamp job (su_status status_update));
      let job := set_updated_at job current_time in
      _ ← commit job_id job;
      job ← refresh job_id job;
      mret (Some job)
  end.

Definition update_job_status (db : session) (job_id : Z) (status_update : JobStatusUpdate)
  : option instance * session :=
  catch None (update_try job_id status_update) db.

Definition get_job (db : session) (job_id : Z) : option instance * session :=
  catch None (query_first job_id) db.

(** The [try] block of [save_detection_results]. *)
Definition save_try (job_id : Z) (result_cog_url vector_results_url : string)
  : action bool :=
  job ← run (fun db => get_job db job_id);
  match job with
  | None => mret false
  | Some _ =>
      status_update ←
        lift (validate {| su_status := COMPLETED; su_progress := Some 100%Q;
                          su_error_message := None;
                          su_result_cog_url := Some result_cog_url;
                          su_vector_results_url := Some vector_results_url |});
      updated_job ← run (fun db => update_job_status db job_id status_update);
      mret (bool_decide (is_Some updated_job))
  end.

Definition save_detection_results (db : session) (job_id : Z)
    (result_cog_url vector_results_url : string) : bool * session :=
  catch false (save_try job_id result_cog_url vector_results_url) db.

(** The [try] block of [mark_job_failed]. *)
Definition mark_try (job_id : Z) (error_message : string) : action bool :=
  found ← query_first job_id;
  match found with
  | None => mret false
  | Some job =>
      let job := set_status job FAILED in
      let job := set_error_message job error_message in
      now ← utcnow;
      let job := setattr job "completed_at" (ATime now) in
      let job := setattr job "progress" (AFloat 0) in
      _ ← commit job_id job;
      mret true
  end.

Definition mark_job_failed (db : session) (job_id : Z) (error_message : string)
  : bool * session :=
  catch false (mark_try job_id error_message) db.

(** *** [process_change_detection_job]

    The worker is synchronous code that holds no database session.  It calls
    the [async] methods of the job service without awaiting them: such a
    call binds its arguments to the parameters of the method, which raises
    [TypeError] when they do not fit, and returns a coroutine that never
    runs.  What the other services answer (bounding box, imagery search,
    loading, inference, storage, model version) is given by [stages]: each
    may return or raise. *)

(** Binding the arguments of a call to the parameters of a method, none of
    which has a default, as the interpreter does it: the positional
    arguments fill the parameters that follow [self] from the left; the
    keywords are then taken in the order of the call, and each must name a
    parameter that is still free; then the positional arguments must not be
    too many, and no parameter may be left free.  The counts of the messages
    include [self]. *)
Definition quote (name : string) : string := "'" +:+ name +:+ "'".

Fixpoint format_names_tail (names : list string) : string :=
  match names with
  | [] => ""
  | [a] => quote a
  | [a; b] => quote a +:+ ", and " +:+ quote b
  | a :: rest => quote a +:+ ", " +:+ format_names_tail rest
  end.

Definition format_names (names : list string) : string :=
  match names with
  | [a; b] => quote a +:+ " and " +:+ quote b
  | _ => format_names_tail names
  end.

Definition plural (n : nat) : string := if (n =? 1)%nat then "" else "s".

Fixpoint bind_keywords (method : string) (params filled keywords : list string)
  : result (list string) :=
  match keywords with
  | [] => ok filled
  | k :: keywords =>
      if negb (bool_decide (k ∈ params))
      then raise (TypeError
             (method +:+ "() got an unexpected keyword argument " +:+ quote k))
      else if bool_decide (k ∈ filled)
      then raise (TypeError
             (method +:+ "() got multiple values for argument " +:+ quote k))
      else bind_keywords method params (k :: filled) keywords
  end.

Definition bind_arguments (method : string) (params : list string)
    (positional : nat) (keywords : list string) : result unit :=
  filled ← bind_keywords method params (take positional params) keywords;
  if (length params <? positional)%nat
  then raise (TypeError
         (method +:+ "() takes " +:+ pretty (S (length params))
            +:+ " positional argument" +:+ plural (S (length params))
            +:+ " but " +:+ pretty (S positional) +:+ " were given"))
  else
    match List.filter (fun p => negb (bool_decide (p ∈ filled))) params with
    | [] => ok ()
    | missing =>
        raise (TypeError
          (method +:+ "() missing " +:+ pretty (length missing)
             +:+ " required positional argument" +:+ plural (length missing)
             +:+ ": " +:+ format_names missing))
    end.

Inductive coroutine : Type := Coroutine (method : string).

Definition call_async (method : string) (params : list string)
    (positional : nat) (keywords : list string) : result coroutine :=
  _ ← bind_arguments method params positional keywords;
  ok (Coroutine method).

(** [coroutine[key]] *)
Definition subscript (c : coroutine) (key : string) : result unit :=
  raise (TypeError "'coroutine' object is not subscriptable").

Definition update_job_status_params : list string := ["db"; "job_id"; "status_update"].
Definition get_job_details_params : list string := ["db"; "job_id"].
Definition save_detection_results_params : list string :=
  ["db"; "job_id"; "detections_data"; "result_cog_url"; "vector_results_url"].

Record stages : Type := {
  bbox : result unit;
  imagery_pair : result (bool * bool);
  load_before : result unit;
  load_after : result unit;
  change_detection : result unit;
  save_cog : result string;
  save_geojson : result string;
  model_version : result string
}.

(** [job_service.update_job_status(job_id, JobStatus.PROCESSING, progress=...)] *)
Definition checkpoint : result coroutine :=
  call_async "JobService.update_job_status" update_job_status_params 2 ["progress"].

(** The [try] block.  A coroutine is true, so the tests [if not job_details]
    and [if not success] are passed over. *)
Definition process_try (st : stages) : result unit :=
  _ ← checkpoint;
  job_details ← call_async "JobService.get_job_details" get_job_details_params 1 [];
  _ ← subscript job_details "aoi_geometry";
  _ ← bbox st;
  _ ← checkpoint;
  '(before_image, after_image) ← imagery_pair st;
  _ ← (if negb before_image || negb after_image
       then raise (Exception
              "No suitable imagery found for the specified dates and area")
       else ok ());
  _ ← checkpoint;
  _ ← load_before st;
  _ ← checkpoint;
  _ ← load_after st;
  _ ← checkpoint;
  _ ← change_detection st;
  _ ← checkpoint;
  _ ← checkpoint;
  cog_url ← save_cog st;
  vector_url ← save_geojson st;
  success ← call_async "JobService.save_detection_results" save_detection_results_params 0
              ["job_id"; "detections_data"; "result_cog_url"; "vector_results_url"];
  _ ← model_version st;
  _ ← call_async "JobService.update_job_status" update_job_status_params 0
        ["job_id"; "status"; "progress"; "model_version"];
  ok ().

(** The whole function: the handler calls the job service once more, then
    raises the exception again. *)
Definition process_change_detection_job (st : stages) : result unit :=
  match process_try st with
  | inr r => ok r
  | inl e =>
      _ ← call_async "JobService.update_job_status" update_job_status_params 0
            ["job_id"; "status"; "error_message"];
      raise e
  end.

(** *** Sequences of calls

    The calls that can reach a job during a run: the three methods of the
    job service that write, and the worker itself, which has no session to
    write to. *)

Inductive call : Type :=
| UpdateJobStatus (job_id : Z) (status_update : JobStatusUpdate)
| SaveDetectionResults (job_id : Z) (result_cog_url vector_results_url : string)
| MarkJobFailed (job_id : Z) (error_message : string)
| ProcessJob (st : stages).

Definition exec (db : session) (c : call) : session :=
  match c with
  | UpdateJobStatus job_id status_update => snd (update_job_status db job_id status_update)
  | SaveDetectionResults job_id cog_url vector_url =>
      snd (save_detection_results db job_id cog_url vector_url)
  | MarkJobFailed job_id msg => snd (mark_job_failed db job_id msg)
  | ProcessJob st => db
  end.

Definition exec_all (db : session) (calls : list call) : session :=
  fold_left exec calls db.

(** The persisted progress of job [job_id] in each table committed since the
    log had [since] entries. *)
Definition progress_trace (job_id : Z) (since : nat) (db : session) : list Z :=
  omap (fun table => row_progress <$> table !! job_id) (drop since (committed db)).

(** *** A small instance

    Job 7, pending with persisted progress 0, in a session whose calls all
    succeed. *)

Definition demo_job : row :=
  {| mapped := {| status := PENDING; error_message := None; result_url := None;
                  updated_at := None |};
     row_progress := 0 |}.

Definition demo_db : session :=
  {| jobs := {[ 7%Z := demo_job ]}; clock := 1000; db_raises := []; committed := [] |}.

Definition demo_stages : stages :=
  {| bbox := ok (); imagery_pair := ok (true, true);
     load_before := ok (); load_after := ok ();
     change_detection := ok (); save_cog := ok "change_detection_7.tif";
     save_geojson := ok "detections_7.geojson"; model_version := ok "1.0.0" |}.

Definition demo_update (st : JobStatus) (p : Q) : JobStatusUpdate :=
  {| su_status := st; su_progress := Some p; su_error_message := None;
     su_result_cog_url := None; su_vector_results_url := None |}.

(** *** Facts about the session

    [same_tables db db']: the stored table and the log of commits are in
    [db'] what they are in [db]. *)

Definition same_tables (db db' : session) : Prop :=
  jobs db' = jobs db /\ committed db' = committed db.

Lemma same_tables_refl db : same_tables db db.
Proof. by split. Qed.

Lemma same_tables_trans db1 db2 db3 :
  same_tables db1 db2 -> same_tables db2 db3 -> same_tables db1 db3.
Proof. intros [H1 H2] [H3 H4]. split; congruence. Qed.

(** An action that leaves the tables alone, whatever it returns. *)
Definition silent {A} (m : action A) : Prop :=
  forall db, same_tables db (snd (m db)).

Lemma bind_eq {A B} (m : action A) (k : A -> action B) db :
  (m ≫= k) db = match m db with
                | (inl e, db') => (inl e, db')
                | (inr a, db') => k a db'
                end.
Proof. reflexivity. Qed.

Definition tick (db : session) : session :=
  {| jobs := jobs db; clock := (clock db + 1)%Z; db_raises := db_raises db;
     committed := committed db |}.

Lemma bind_utcnow {B} (k : Z -> action B) db : (utcnow ≫= k) db = k (clock db) (tick db).
Proof. reflexivity. Qed.

Lemma bind_lift_raise {A B} (e : exn) (k : A -> action B) db :
  (lift (raise e) ≫= k) db = (raise e, db).
Proof. reflexivity. Qed.

Lemma bind_lift_ok {A B} (a : A) (k : A -> action B) db : (lift (ok a) ≫= k) db = k a db.
Proof. reflexivity. Qed.

Lemma silent_bind {A B} (m : action A) (k : A -> action B) :
  silent m -> (forall a, silent (k a)) -> silent (m ≫= k).
Proof.
  intros Hm Hk db. unfold mbind, action_bind. specialize (Hm db).
  destruct (m db) as [[e | a] db1]; [exact Hm |].
  eapply same_tables_trans; [exact Hm | apply Hk].
Qed.

Lemma silent_ret {A} (a : A) : silent (mret a).
Proof. intros db. apply same_tables_refl. Qed.

Lemma silent_lift {A} (r : result A) : silent (lift r).
Proof. intros db. apply same_tables_refl. Qed.

Lemma silent_db_call : silent db_call.
Proof. intros db. unfold db_call. destruct (db_raises db) as [| [|] rest]; by split. Qed.

Lemma silent_utcnow : silent utcnow.
Proof. intros db. by split. Qed.

Lemma silent_lookup_row job_id : silent (lookup_row job_id).
Proof. intros db. by split. Qed.

Lemma silent_query_first job_id : silent (query_first job_id).
Proof.
  unfold query_first. apply silent_bind; [apply silent_db_call | intros _].
  apply silent_bind; [apply silent_lookup_row | intros r]. apply silent_ret.
Qed.

Lemma silent_run {A} (f : session -> A * session) :
  (forall db, same_tables db (snd (f db))) -> silent (run f).
Proof. intros H db. unfold run. specialize (H db). by destruct (f db). Qed.

Lemma catch_tables {A} (fallback : A) (body : action A) db :
  same_tables db (snd (body db)) -> same_tables db (snd (catch fallback body db)).
Proof. unfold catch. by destruct (body db) as [[e | a] db1]. Qed.

(** What a query returns is the object loaded for the stored row. *)
Lemma query_first_found job_id db found db1 :
  query_first job_id db = (inr found, db1) ->
  found = load <$> jobs db !! job_id /\ same_tables db db1.
Proof.
  intros H. pose proof (silent_query_first job_id db) as Hs. rewrite H in Hs.
  split; [| exact Hs].
  unfold query_first, mbind, action_bind, db_call, lookup_row in H.
  destruct (db_raises db) as [| [|] rest]; cbn in H; inversion H; reflexivity.
Qed.

(** The plain attributes [update_job_status] assigns are never the two it
    reads. *)
Lemma assign_attrs r su :
  attrs (assign (load r) su) !! "started_at" = None /\
  attrs (assign (load r) su) !! "completed_at" = None.
Proof.
  unfold assign, load.
  destruct (su_progress su), (su_error_message su), (su_result_cog_url su),
    (su_vector_results_url su); cbn; by rewrite ?lookup_insert_ne by discriminate.
Qed.

Lemma assign_columns r su :
  columns (assign (load r) su)
    = {| status := su_status su;
         error_message :=
           match su_error_message su with
           | Some m => Some m
           | None => error_message (mapped r)
           end;
         result_url := result_url (mapped r);
         updated_at := updated_at (mapped r) |}.
Proof.
  unfold assign, load.
  by destruct (su_progress su), (su_error_message su), (su_result_cog_url su),
    (su_vector_results_url su).
Qed.

Lemma stamp_raises r su :
  su_status su <> PENDING -> exists e, stamp (assign (load r) su) (su_status su) = raise e.
Proof.
  intros Hst. destruct (assign_attrs r su) as [Hs Hc].
  unfold stamp, getattr. destruct (su_status su); [congruence | | |];
    rewrite ?Hs, ?Hc; eauto.
Qed.

Lemma stamp_pending job : stamp job PENDING = ok job.
Proof. reflexivity. Qed.

(** An update to any status but PENDING raises before it commits. *)
Lemma update_try_raises job_id su db :
  su_status su <> PENDING ->
  same_tables db (snd (update_try job_id su db)) /\
  (fst (update_try job_id su db) = ok None \/
   exists e, fst (update_try job_id su db) = raise e).
Proof.
  intros Hst. unfold update_try. rewrite bind_eq.
  destruct (query_first job_id db) as [[e | found] db1] eqn:Hq.
  { pose proof (silent_query_first job_id db) as Hs. rewrite Hq in Hs.
    split; [exact Hs | right; exists e; reflexivity]. }
  apply query_first_found in Hq. destruct Hq as [-> Hs].
  destruct (jobs db !! job_id) as [r |]; cbn [fmap option_fmap option_map].
  2: { split; [exact Hs | left; reflexivity]. }
  destruct (stamp_raises r su Hst) as [e He]. cbv beta iota.
  rewrite bind_utcnow, He, bind_lift_raise. cbn [fst snd tick jobs committed].
  split; [| right; exists e; reflexivity]. destruct Hs as [H1 H2]. by split.
Qed.

(** *** Facts: the column [progress] is never written

    [Inv T base db]: the stored table and every table committed since the
    log was [base] hold, row by row, the progress values of [T]. *)

Definition same_progress (T t : gmap Z row) : Prop :=
  forall k, row_progress <$> t !! k = row_progress <$> T !! k.

Definition Inv (T : gmap Z row) (base : list (gmap Z row)) (db : session) : Prop :=
  same_progress T (jobs db) /\
  exists new, committed db = base ++ new /\ Forall (same_progress T) new.

Definition keeps {A} (m : action A) : Prop :=
  forall T base db, Inv T base db -> Inv T base (snd (m db)).

Lemma Inv_same_tables T base db db' : same_tables db db' -> Inv T base db -> Inv T base db'.
Proof.
  intros [Hj Hc] [Hp [new [Hn HF]]]. split; [by rewrite Hj |].
  exists new. split; [by rewrite Hc | exact HF].
Qed.

Lemma silent_keeps {A} (m : action A) : silent m -> keeps m.
Proof. intros Hs T base db. apply Inv_same_tables, Hs. Qed.

Lemma keeps_bind {A B} (m : action A) (k : A -> action B) :
  keeps m -> (forall a, keeps (k a)) -> keeps (m ≫= k).
Proof.
  intros Hm Hk T base db HI. rewrite bind_eq. specialize (Hm T base db HI).
  destruct (m db) as [[e | a] db1]; [exact Hm |]. by apply Hk.
Qed.

Lemma keeps_flush job_id job : keeps (flush job_id job).
Proof.
  intros T base db [Hp [new [Hn HF]]]. unfold flush.
  destruct (jobs db !! job_id) as [r |] eqn:Hr; [| split; eauto].
  assert (Ht : forall written,
            same_progress T (<[job_id := {| mapped := written;
                                            row_progress := row_progress r |}]> (jobs db))).
  { intros written k. destruct (decide (k = job_id)) as [-> |].
    - rewrite lookup_insert_eq, <- Hp, Hr. reflexivity.
    - rewrite lookup_insert_ne by congruence. apply Hp. }
  cbn [snd jobs committed]. split; [apply Ht |].
  eexists. split; [rewrite Hn, <- app_assoc; reflexivity |].
  apply Forall_app. split; [exact HF |]. constructor; [apply Ht | constructor].
Qed.

Lemma keeps_commit job_id job : keeps (commit job_id job).
Proof.
  unfold commit. apply keeps_bind; [apply silent_keeps, silent_db_call | intros _].
  apply keeps_flush.
Qed.

Lemma silent_refresh job_id job : silent (refresh job_id job).
Proof.
  unfold refresh. apply silent_bind; [apply silent_db_call | intros _].
  apply silent_bind; [apply silent_lookup_row | intros [r |]];
    [apply silent_ret | apply silent_lift].
Qed.

Lemma keeps_catch {A} (fallback : A) (body : action A) T base db :
  keeps body -> Inv T base db -> Inv T base (snd (catch fallback body db)).
Proof.
  intros Hk HI. specialize (Hk T base db HI). unfold catch.
  by destruct (body db) as [[e | a] db1].
Qed.

Lemma keeps_run {A} (f : session -> A * session) :
  (forall T base db, Inv T base db -> Inv T base (snd (f db))) -> keeps (run f).
Proof. intros H T base db HI. unfold run. specialize (H T base db HI). by destruct (f db). Qed.

Lemma keeps_update_try job_id su : keeps (update_try job_id su).
Proof.
  unfold update_try.
  apply keeps_bind; [apply silent_keeps, silent_query_first | intros [job |]];
    [| apply silent_keeps, silent_ret].
  apply keeps_bind; [apply silent_keeps, silent_utcnow | intros current_time].
  apply keeps_bind; [apply silent_keeps, silent_lift | intros job1].
  apply keeps_bind; [apply keeps_commit | intros _].
  apply keeps_bind; [apply silent_keeps, silent_refresh | intros job2].
  apply silent_keeps, silent_ret.
Qed.

Lemma Inv_update_job_status T base db job_id su :
  Inv T base db -> Inv T base (snd (update_job_status db job_id su)).
Proof. apply keeps_catch, keeps_update_try. Qed.

Lemma get_job_tables db job_id : same_tables db (snd (get_job db job_id)).
Proof. apply catch_tables, silent_query_first. Qed.

Lemma keeps_save_try job_id cog_url vector_url : keeps (save_try job_id cog_url vector_url).
Proof.
  unfold save_try. apply keeps_bind.
  { apply silent_keeps, silent_run. intros db. apply get_job_tables. }
  intros [job |]; [| apply silent_keeps, silent_ret].
  apply keeps_bind; [apply silent_keeps, silent_lift | intros status_update].
  apply keeps_bind; [| intros updated_job; apply silent_keeps, silent_ret].
  apply keeps_run. intros T base db. apply Inv_update_job_status.
Qed.

Lemma keeps_mark_try job_id msg : keeps (mark_try job_id msg).
Proof.
  unfold mark_try.
  apply keeps_bind; [apply silent_keeps, silent_query_first | intros [job |]];
    [| apply silent_keeps, silent_ret].
  apply keeps_bind; [apply silent_keeps, silent_utcnow | intros now].
  apply keeps_bind; [apply keeps_commit | intros _].
  apply silent_keeps, silent_ret.
Qed.

Lemma Inv_exec T base db c : Inv T base db -> Inv T base (exec db c).
Proof.
  intros HI. destruct c as [job_id su | job_id cog_url vector_url | job_id msg | st];
    cbn [exec].
  - by apply Inv_update_job_status.
  - by apply keeps_catch; [apply keeps_save_try |].
  - by apply keeps_catch; [apply keeps_mark_try |].
  - exact HI.
Qed.

Lemma Inv_exec_all T base calls db : Inv T base db -> Inv T base (exec_all db calls).
Proof.
  revert db. induction calls as [| c calls IH]; intros db HI; [exact HI |].
  cbn [exec_all fold_left]. apply IH. by apply Inv_exec.
Qed.

Lemma Inv_start db : Inv (jobs db) (committed db) db.
Proof.
  split; [by intros k |]. exists []. split; [by rewrite app_nil_r | constructor].
Qed.

Lemma constant_sorted (p : Z) (l : list Z) :
  Forall (fun q => q = p) l -> StronglySorted Z.le l.
Proof.
  induction 1 as [| q l -> HF IH]; constructor; [exact IH |].
  eapply Forall_impl; [exact HF |]. intros q ->. lia.
Qed.

(** The trace of a session that satisfies the invariant. *)
Lemma Inv_trace T base db job_id :
  Inv T base db ->
  Forall (fun p => row_progress <$> T !! job_id = Some p)
         (progress_trace job_id (length base) db).
Proof.
  intros [_ [new [Hn HF]]]. unfold progress_trace.
  rewrite Hn, drop_app_length. clear Hn.
  induction HF as [| table new Ht _ IH]; [constructor |].
  cbn [omap list_omap]. destruct (table !! job_id) as [r |] eqn:Hr; cbn.
  - constructor; [| exact IH]. rewrite <- Ht, Hr. reflexivity.
  - exact IH.
Qed.

(** *** Facts: what a commit writes *)

Lemma db_call_cases db :
  (exists e, fst (db_call db) = raise e) \/ fst (db_call db) = ok ().
Proof.
  unfold db_call. destruct (db_raises db) as [| [|] rest]; cbn; eauto.
Qed.

Lemma flush_spec job_id job db r :
  jobs db !! job_id = Some r ->
  exists now,
    fst (flush job_id job db) = ok () /\
    jobs (snd (flush job_id job db))
      = <[job_id := {| mapped := {| status := status (columns job);
                                    error_message := error_message (columns job);
                                    result_url := result_url (columns job);
                                    updated_at := now |};
                       row_progress := row_progress r |}]> (jobs db) /\
    committed (snd (flush job_id job db))
      = committed db ++ [jobs (snd (flush job_id job db))] /\
    (now = updated_at (columns job) \/ now = Some (clock db)).
Proof.
  intros Hr. unfold flush. rewrite Hr.
  destruct (negb _ && _); cbn [fst snd jobs committed].
  - exists (Some (clock db)). repeat split. by right.
  - exists (updated_at (columns job)). destruct (columns job). repeat split. by left.
Qed.

(** A commit either raises and leaves the tables alone, or makes the row
    durable with the mapped columns of the object. *)
Lemma commit_spec job_id job db r :
  jobs db !! job_id = Some r ->
  ((exists e, fst (commit job_id job db) = raise e) /\
   same_tables db (snd (commit job_id job db))) \/
  exists now,
    fst (commit job_id job db) = ok () /\
    jobs (snd (commit job_id job db))
      = <[job_id := {| mapped := {| status := status (columns job);
                                    error_message := error_message (columns job);
                                    result_url := result_url (columns job);
                                    updated_at := now |};
                       row_progress := row_progress r |}]> (jobs db) /\
    committed (snd (commit job_id job db))
      = committed db ++ [jobs (snd (commit job_id job db))] /\
    (now = updated_at (columns job) \/ exists t, now = Some t).
Proof.
  intros Hr. unfold commit. rewrite bind_eq.
  pose proof (silent_db_call db) as [Hj Hc].
  destruct (db_call db) as [[e | []] db1]; cbn [fst snd] in *.
  { left. split; [by exists e | by split]. }
  right. rewrite <- Hj in Hr. destruct (flush_spec job_id job db1 r Hr)
    as (now & H1 & H2 & H3 & H4).
  exists now. rewrite H1, H2, H3, Hj, Hc. repeat split.
  - by rewrite H2, Hj.
  - destruct H4 as [-> | ->]; [by left | right; eauto].
Qed.

Lemma refresh_tables job_id job db : same_tables db (snd (refresh job_id job db)).
Proof. apply silent_refresh. Qed.

(** What [get_job] answers. *)
Lemma get_job_cases db job_id :
  same_tables db (snd (get_job db job_id)) /\
  ((fst (get_job db job_id) = None /\
    (jobs db !! job_id = None \/ head (db_raises db) = Some true)) \/
   exists r, jobs db !! job_id = Some r /\ fst (get_job db job_id) = Some (load r)).
Proof.
  split; [apply get_job_tables |].
  unfold get_job, catch, query_first, mbind, action_bind, db_call, lookup_row.
  destruct (db_raises db) as [| [|] rest]; cbn;
    destruct (jobs db !! job_id) as [r |]; cbn; eauto.
Qed.

(** A run of three calls that do commit: the trace is not empty. *)
Example demo_trace :
  progress_trace 7 0
    (exec_all demo_db [UpdateJobStatus 7 (demo_update PENDING 50);
                       MarkJobFailed 7 "stopped";
                       UpdateJobStatus 7 (demo_update PENDING 10)])
    = [0; 0; 0]%Z.
Proof. vm_compute. reflexivity. Qed.

(** *** Properties of the job service and the worker *)

(** C2.  For every sequence of calls made during a run (status updates with
    any status and any progress, the saving of results, the marking as
    failed, and the worker itself), the persisted progress values of a job,
    in the order the commits made them durable, are non-decreasing: each is
    the progress the job had before the sequence, and so is the one stored
    at the end. *)
Theorem persisted_progress_nondecreasing (db : session) (calls : list call) (job_id : Z) :
  StronglySorted Z.le
    (progress_trace job_id (length (committed db)) (exec_all db calls)) /\
  Forall (fun p => row_progress <$> jobs db !! job_id = Some p)
    (progress_trace job_id (length (committed db)) (exec_all db calls)) /\
  row_progress <$> jobs (exec_all db calls) !! job_id
    = row_progress <$> jobs db !! job_id.
Proof.
  pose proof (Inv_exec_all _ _ calls db (Inv_start db)) as HI.
  pose proof (Inv_trace _ _ _ job_id HI) as Ht.
  split; [| split; [exact Ht | apply HI]].
  destruct (jobs db !! job_id) as [r |]; cbn in Ht.
  - apply (constant_sorted (row_progress r)).
    eapply Forall_impl; [exact Ht |]. intros p Hp. by inversion Hp.
  - destruct (progress_trace _ _ _) as [| p l]; [constructor |].
    inversion Ht as [| ? ? Hp _]. discriminate.
Qed.

(** X18.  An update to PROCESSING, COMPLETED or FAILED never succeeds:
    [update_job_status] reads [job.started_at] or [job.completed_at], which
    class [Job] does not have, the [AttributeError] is caught, and the
    function returns nothing with the table and the log of commits as they
    were. *)
Theorem update_job_status_fails_unless_pending (db : session) (job_id : Z)
    (status_update : JobStatusUpdate) :
  su_status status_update <> PENDING ->
  fst (update_job_status db job_id status_update) = None /\
  jobs (snd (update_job_status db job_id status_update)) = jobs db /\
  committed (snd (update_job_status db job_id status_update)) = committed db.
Proof.
  intros Hst. destruct (update_try_raises job_id status_update db Hst) as [[Hj Hc] Hr].
  unfold update_job_status, catch.
  destruct (update_try job_id status_update db) as [[e | returned] db1];
    cbn [fst snd] in *; [by repeat split |].
  destruct Hr as [Hr | [e Hr]]; [| discriminate].
  inversion Hr. by repeat split.
Qed.

Lemma update_job_status_fails_unless_pending_witness :
  fst (update_job_status demo_db 7 (demo_update PROCESSING 10)) = None /\
  jobs (snd (update_job_status demo_db 7 (demo_update PROCESSING 10))) = jobs demo_db /\
  committed (snd (update_job_status demo_db 7 (demo_update PROCESSING 10)))
    = committed demo_db.
Proof.
  apply (update_job_status_fails_unless_pending demo_db 7 (demo_update PROCESSING 10)).
  discriminate.
Defined.

(** X17.  One call of [update_job_status] either returns nothing and leaves
    the table and the log of commits as they were, or it is an update to
    PENDING of an existing job; then exactly one commit is made, and it
    writes the status, the error message and [updated_at] of that row and
    nothing else: the progress and the result URLs that the update carries
    are not persisted, and no other row changes. *)
Theorem update_job_status_outcome (db : session) (job_id : Z)
    (status_update : JobStatusUpdate) :
  (fst (update_job_status db job_id status_update) = None /\
   jobs (snd (update_job_status db job_id status_update)) = jobs db /\
   committed (snd (update_job_status db job_id status_update)) = committed db) \/
  (exists r now,
     su_status status_update = PENDING /\
     jobs db !! job_id = Some r /\
     jobs (snd (update_job_status db job_id status_update))
       = <[job_id := {| mapped := {| status := PENDING;
                                     error_message :=
                                       match su_error_message status_update with
                                       | Some m => Some m
                                       | None => error_message (mapped r)
                                       end;
                                     result_url := result_url (mapped r);
                                     updated_at := Some now |};
                        row_progress := row_progress r |}]> (jobs db) /\
     committed (snd (update_job_status db job_id status_update))
       = committed db ++ [jobs (snd (update_job_status db job_id status_update))]).
Proof.
  destruct (decide (su_status status_update = PENDING)) as [Hst | Hst].
  2: { left. destruct (update_try_raises job_id status_update db Hst) as [[Hj Hc] Hr].
       unfold update_job_status, catch.
       destruct (update_try job_id status_update db) as [[e | returned] db1];
         cbn [fst snd] in *; [by repeat split |].
       destruct Hr as [Hr | [e Hr]]; [| discriminate]. inversion Hr. by repeat split. }
  unfold update_job_status, catch, update_try. rewrite bind_eq.
  destruct (query_first job_id db) as [[e | found] db1] eqn:Hq.
  { pose proof (silent_query_first job_id db) as Hs. rewrite Hq in Hs.
    left. destruct Hs. by repeat split. }
  apply query_first_found in Hq. destruct Hq as [-> [Hj1 Hc1]].
  destruct (jobs db !! job_id) as [r |] eqn:Hr; cbn [fmap option_fmap option_map];
    cbv beta iota; [| left; by repeat split].
  rewrite bind_utcnow, Hst, stamp_pending, bind_lift_ok, bind_eq.
  set (job := set_updated_at (assign (load r) status_update) (clock db1)).
  assert (Hr2 : jobs (tick db1) !! job_id = Some r) by (cbn [tick jobs]; by rewrite Hj1).
  destruct (commit_spec job_id job (tick db1) r Hr2)
    as [[[e He] [Hj2 Hc2]] | (now & Hok & Hj2 & Hc2 & Hnow)].
  { destruct (commit job_id job (tick db1)) as [[e' | []] db2]; cbn [fst snd] in *;
      [| discriminate].
    left. repeat split; [by rewrite Hj2 | by rewrite Hc2]. }
  destruct (commit job_id job (tick db1)) as [[e' | []] db2]; cbn [fst snd] in *;
    [discriminate |].
  rewrite bind_eq. pose proof (refresh_tables job_id job db2) as [Hj3 Hc3].
  assert (Hnow' : exists t, now = Some t).
  { destruct Hnow as [-> | Hnow]; [| exact Hnow]. subst job. cbn. eauto. }
  destruct Hnow' as [t ->].
  assert (Hcols : columns job
            = {| status := PENDING;
                 error_message := match su_error_message status_update with
                                  | Some m => Some m
                                  | None => error_message (mapped r)
                                  end;
                 result_url := result_url (mapped r);
                 updated_at := Some (clock db1) |}).
  { subst job. unfold set_updated_at. cbn [columns].
    rewrite assign_columns, Hst. reflexivity. }
  rewrite Hcols in Hj2. cbn [status error_message result_url tick jobs] in Hj2.
  cbn [tick committed] in Hc2. rewrite Hj1 in Hj2. rewrite Hc1 in Hc2.
  right. exists r, t. split; [reflexivity |]. split; [reflexivity |].
  destruct (refresh job_id job db2) as [[e' | job'] db3]; cbv beta iota;
    cbn [fst snd mret action_ret] in *;
    (split; [by rewrite Hj3 | by rewrite Hc3, Hj3]).
Qed.

(** X20.  [save_detection_results] never returns true and never persists
    anything: the update to COMPLETED it relies on raises inside
    [update_job_status] and is answered with nothing. *)
Theorem save_detection_results_returns_false (db : session) (job_id : Z)
    (result_cog_url vector_results_url : string) :
  fst (save_detection_results db job_id result_cog_url vector_results_url) = false /\
  jobs (snd (save_detection_results db job_id result_cog_url vector_results_url))
    = jobs db /\
  committed (snd (save_detection_results db job_id result_cog_url vector_results_url))
    = committed db.
Proof.
  unfold save_detection_results, catch.
  destruct (save_try job_id result_cog_url vector_results_url db) as [res db'] eqn:E.
  assert (H : same_tables db db' /\ (res = ok false \/ exists e, res = raise e)).
  { unfold save_try in E. rewrite bind_eq in E. unfold run at 1 in E.
    pose proof (get_job_tables db job_id) as [Hj1 Hc1].
    destruct (get_job db job_id) as [[job |] db1]; cbn [fst snd] in *;
      cbv beta iota in E.
    2: { inversion E; subst. split; [by split | by left]. }
    unfold mbind, action_bind, lift, run, validate in E. cbv beta iota in E.
    destruct (_ && _); cbv beta iota delta [ok raise] in E.
    2: { inversion E; subst. split; [by split | right; eauto]. }
    match type of E with context [update_job_status db1 job_id ?su] =>
      destruct (update_try_raises job_id su db1) as [[Hj2 Hc2] Hr]; [discriminate |];
      unfold update_job_status, catch in E;
      destruct (update_try job_id su db1) as [[e | returned] db2] end;
      cbn [fst snd] in *.
    - inversion E; subst. split; [split; congruence | by left].
    - destruct Hr as [Hr | [e Hr]]; [| discriminate]. inversion Hr; subst.
      inversion E; subst. split; [split; congruence | by left]. }
  destruct H as [[Hj Hc] [-> | [e ->]]]; by repeat split.
Qed.

(** X21.  [mark_job_failed] returns true only after one commit that writes
    status FAILED and the message into the row of an existing job; the
    persisted progress of that row is what it was, not 0, since [progress]
    and [completed_at] are not columns of class [Job].  When it returns
    false the table and the log of commits are as they were. *)
Theorem mark_job_failed_outcome (db : session) (job_id : Z) (msg : string) :
  match mark_job_failed db job_id msg with
  | (true, db') =>
      exists r r',
        jobs db !! job_id = Some r /\
        jobs db' = <[job_id := r']> (jobs db) /\
        status (mapped r') = FAILED /\
        error_message (mapped r') = Some msg /\
        result_url (mapped r') = result_url (mapped r) /\
        row_progress r' = row_progress r /\
        committed db' = committed db ++ [jobs db']
  | (false, db') => jobs db' = jobs db /\ committed db' = committed db
  end.
Proof.
  unfold mark_job_failed, catch, mark_try. rewrite bind_eq.
  destruct (query_first job_id db) as [[e | found] db1] eqn:Hq.
  { pose proof (silent_query_first job_id db) as Hs. by rewrite Hq in Hs. }
  apply query_first_found in Hq. destruct Hq as [-> [Hj1 Hc1]].
  destruct (jobs db !! job_id) as [r |] eqn:Hr; cbn [fmap option_fmap option_map];
    cbv beta iota; [| by split].
  rewrite bind_utcnow, bind_eq.
  match goal with |- context [commit job_id ?j (tick db1)] => set (job := j) end.
  assert (Hr2 : jobs (tick db1) !! job_id = Some r) by (cbn [tick jobs]; by rewrite Hj1).
  destruct (commit_spec job_id job (tick db1) r Hr2)
    as [[[e He] [Hj2 Hc2]] | (now & Hok & Hj2 & Hc2 & _)];
    destruct (commit job_id job (tick db1)) as [[e' | []] db2]; cbn [fst snd] in *;
    try discriminate.
  - cbn [tick jobs committed] in Hj2, Hc2. split; congruence.
  - cbn [tick jobs committed] in Hj2, Hc2. rewrite Hj1 in Hj2. rewrite Hc1 in Hc2.
    eexists r, _. split; [reflexivity |]. split; [exact Hj2 |].
    subst job. cbn. by repeat split.
Qed.

(** X22.  The worker never gets past its first statement and never marks the
    job: for every answer of the other services,
    [update_job_status(job_id, JobStatus.PROCESSING, progress=0.0)] raises
    [TypeError] in the [try] block, the call in the handler raises
    [TypeError] as well, and that second exception is the one that leaves
    the function. *)
Theorem worker_raises_type_error (st : stages) :
  process_try st
    = raise (TypeError
        "JobService.update_job_status() got an unexpected keyword argument 'progress'") /\
  process_change_detection_job st
    = raise (TypeError
        "JobService.update_job_status() got an unexpected keyword argument 'status'").
Proof.
  assert (Htry : process_try st
            = raise (TypeError
                "JobService.update_job_status() got an unexpected keyword argument 'progress'"))
    by reflexivity.
  split; [exact Htry |].
  unfold process_change_detection_job. rewrite Htry. reflexivity.
Qed.

End Jobs.

Module Storage.

(** *** [StorageService]

    The MinIO bucket is a finite map from object names to what was uploaded.
    Whether a call of the client fails is scripted, one flag per call. *)

(** [str.split(sep)] for a separator that is not empty: the text is scanned
    from the left, and every occurrence found closes the current part and is
    skipped. *)
Fixpoint split_go (sep : string) (skip : nat) (cur s : string) : list string :=
  match s with
  | EmptyString => [cur]
  | String c s' =>
      match skip with
      | S k => split_go sep k cur s'
      | O =>
          if String.prefix sep s
          then cur :: split_go sep (String.length sep - 1) "" s'
          else split_go sep 0 (cur +:+ String c "") s'
      end
  end.

Definition split (sep s : string) : list string := split_go sep 0 "" s.

(** [str.find(sep)]: where [sep] first occurs. *)
Fixpoint find (sep s : string) : option nat :=
  if String.prefix sep s then Some 0%nat
  else match s with
       | EmptyString => None
       | String _ s' => S <$> find sep s'
       end.

(** [sep.join(parts)] *)
Fixpoint join (sep : string) (parts : list string) : string :=
  match parts with
  | [] => ""
  | [part] => part
  | part :: rest => part +:+ sep +:+ join sep rest
  end.

Section Service.
Context {geojson : Type}.

Record feature : Type := Feature {
  feature_geometry : value geojson;
  feature_properties : gmap string (value geojson)
}.

(** What an object of the bucket holds. *)
Inductive content : Type :=
| LocalFile (file_path : string)
| FeatureCollection (features : list feature) (total_features : nat) (generated_at : Z).

Record StorageService : Type := {
  endpoint : string;
  bucket_name : string;
  objects : gmap string content;
  client_raises : list bool;
  clock : Z
}.

(** One call of the MinIO client: whether it raises, and the service after it. *)
Definition client_call (self : StorageService) : bool * StorageService :=
  match client_raises self with
  | fails :: rest =>
      (fails, {| endpoint := endpoint self; bucket_name := bucket_name self;
                 objects := objects self; client_raises := rest; clock := clock self |})
  | [] => (false, self)
  end.

Definition with_objects (self : StorageService) (objs : gmap string content)
  : StorageService :=
  {| endpoint := endpoint self; bucket_name := bucket_name self;
     objects := objs; client_raises := client_raises self; clock := clock self |}.

(** [f"http://{settings.MINIO_ENDPOINT}/{self.bucket_name}/{object_name}"] *)
Definition object_url (self : StorageService) (object_name : string) : string :=
  "http://" +:+ endpoint self +:+ "/" +:+ bucket_name self +:+ "/" +:+ object_name.

(** [self.client.fput_object], then the URL. *)
Definition put_object (self : StorageService) (object_name : string) (c : content)
  : result string * StorageService :=
  let '(fails, self) := client_call self in
  if fails then (raise (Exception "S3Error"), self)
  else (ok (object_url self object_name),
        with_objects self (<[object_name := c]> (objects self))).

Definition save_file (self : StorageService) (file_path object_name : string)
  : result string * StorageService :=
  put_object self object_name (LocalFile file_path).

(** The feature built for one detection. *)
Definition feature_of (detection : gmap string (value geojson)) : result feature :=
  geometry ← Validation.getitem detection "geometry";
  ok (Feature geometry (delete "geometry" detection)).

Definition save_geojson (self : StorageService)
    (detections : list (gmap string (value geojson))) (filename : string)
  : result string * StorageService :=
  match Validation.for_each feature_of detections with
  | inl e => (raise e, self)
  | inr features =>
      put_object self ("vectors/" +:+ filename)
        (FeatureCollection features (length features) (clock self))
  end.

Definition delete_file_from_url (self : StorageService) (url : string)
  : bool * StorageService :=
  let url_parts := split ("/" +:+ bucket_name self +:+ "/") url in
  match url_parts with
  | [_; object_name] =>
      let '(fails, self) := client_call self in
      if fails then (false, self)
      else (true, with_objects self (delete object_name (objects self)))
  | _ => (false, self)
  end.

End Service.

Arguments feature : clear implicits.
Arguments content : clear implicits.
Arguments StorageService : clear implicits.

(** *** Facts about splitting and joining *)

Lemma append_cons c (s t : string) : String c s +:+ t = String c (s +:+ t).
Proof. reflexivity. Qed.

Lemma append_nil_l (s : string) : "" +:+ s = s.
Proof. reflexivity. Qed.

Lemma append_nil_r (s : string) : s +:+ "" = s.
Proof. induction s as [| c s IH]; [reflexivity |]. by rewrite append_cons, IH. Qed.

Lemma append_assoc (a b c : string) : (a +:+ b) +:+ c = a +:+ (b +:+ c).
Proof. induction a as [| x a IH]; [reflexivity |]. by rewrite !append_cons, IH. Qed.

Lemma prefix_append (sep post : string) : String.prefix sep (sep +:+ post) = true.
Proof.
  induction sep as [| c sep IH]; [by destruct post |]. rewrite append_cons. simpl.
  destruct (Ascii.ascii_dec c c); [exact IH | congruence].
Qed.

Lemma prefix_inv (sep s : string) :
  String.prefix sep s = true -> exists post, s = sep +:+ post.
Proof.
  revert s. induction sep as [| c sep IH]; intros s H.
  - by exists s.
  - destruct s as [| d s]; [discriminate |]. simpl in H.
    destruct (Ascii.ascii_dec c d) as [-> |]; [| discriminate].
    destruct (IH _ H) as [post ->]. by exists post.
Qed.

(** Skipping the rest of a separator. *)
Lemma split_go_skip sep a b cur :
  split_go sep (String.length a) cur (a +:+ b) = split_go sep 0 cur b.
Proof.
  induction a as [| c a IH]; [reflexivity |]. rewrite append_cons. exact IH.
Qed.

Lemma split_go_no_occurrence sep s cur :
  find sep s = None -> split_go sep 0 cur s = [cur +:+ s].
Proof.
  revert cur. induction s as [| c s IH]; intros cur H.
  - cbn [split_go]. by rewrite append_nil_r.
  - cbn [find] in H. destruct (String.prefix sep (String c s)) eqn:E; [discriminate |].
    cbn [split_go]. rewrite E.
    destruct (find sep s) eqn:F; [discriminate |].
    rewrite IH by reflexivity. by rewrite append_assoc.
Qed.

Lemma split_go_first_occurrence sep pre post cur :
  sep <> "" ->
  find sep (pre +:+ sep +:+ post) = Some (String.length pre) ->
  split_go sep 0 cur (pre +:+ sep +:+ post) = (cur +:+ pre) :: split_go sep 0 "" post.
Proof.
  intros Hne. revert cur. induction pre as [| c pre IH]; intros cur H.
  - rewrite append_nil_r, append_nil_l. destruct sep as [| c sep']; [congruence |].
    rewrite append_cons. cbn [split_go]. rewrite <- append_cons.
    rewrite prefix_append. f_equal.
    replace (String.length (String c sep') - 1)%nat with (String.length sep')
      by (cbn [String.length]; lia).
    apply split_go_skip.
  - rewrite append_cons in *.
    cbn [find] in H.
    destruct (String.prefix sep (String c (pre +:+ sep +:+ post))) eqn:E;
      [cbn in H; discriminate |].
    cbn [split_go]. rewrite E.
    destruct (find sep (pre +:+ sep +:+ post)) as [i |] eqn:F; [| discriminate].
    cbn in H. assert (i = String.length pre) by congruence. subst i.
    rewrite IH by reflexivity. by rewrite append_assoc.
Qed.

(** A URL in which the separator occurs once, right before the object name,
    splits in two. *)
Lemma split_url sep pre post :
  sep <> "" ->
  find sep (pre +:+ sep +:+ post) = Some (String.length pre) ->
  find sep post = None ->
  split sep (pre +:+ sep +:+ post) = [pre; post].
Proof.
  intros Hne H1 H2. unfold split.
  rewrite split_go_first_occurrence by assumption.
  by rewrite split_go_no_occurrence.
Qed.

Lemma split_go_nonempty sep k cur s : split_go sep k cur s <> [].
Proof.
  revert k cur. induction s as [| c s IH]; intros k cur; cbn [split_go]; [discriminate |].
  destruct k; [| apply IH]. destruct (String.prefix _ _); [discriminate | apply IH].
Qed.

Lemma join_cons sep part rest :
  rest <> [] -> join sep (part :: rest) = part +:+ sep +:+ join sep rest.
Proof. destruct rest; [congruence | reflexivity]. Qed.

(** [sep.join(s.split(sep)) == s], with the part of the text still to be
    skipped made explicit. *)
Lemma join_split_go sep :
  sep <> "" ->
  forall s a b cur,
    s = a +:+ b ->
    join sep (split_go sep (String.length a) cur s) = cur +:+ b.
Proof.
  intros Hne. induction s as [| c s IH]; intros a b cur Hs.
  - destruct a; [| discriminate]. rewrite append_nil_l in Hs. subst b.
    cbn [String.length split_go join]. by rewrite append_nil_r.
  - destruct a as [| d a].
    + rewrite append_nil_l in Hs. subst b. cbn [String.length split_go].
      destruct (String.prefix sep (String c s)) eqn:E.
      * apply prefix_inv in E. destruct E as [post E].
        destruct sep as [| x sep']; [congruence |].
        rewrite append_cons in E. inversion E; subst. clear E.
        rewrite join_cons by apply split_go_nonempty.
        match goal with |- context [(String.length (String ?y sep') - 1)%nat] =>
          replace (String.length (String y sep') - 1)%nat with (String.length sep')
            by (cbn [String.length]; lia) end.
        rewrite (IH sep' post "" eq_refl). by rewrite append_nil_l, append_cons.
      * pose proof (IH "" s (cur +:+ String c "") eq_refl) as H.
        cbn [String.length] in H. rewrite H.
        by rewrite append_assoc.
    + rewrite append_cons in Hs. inversion Hs; subst. cbn [String.length split_go].
      by apply IH.
Qed.

Lemma join_split sep s : sep <> "" -> join sep (split sep s) = s.
Proof. intros Hne. exact (join_split_go sep Hne s "" s "" eq_refl). Qed.

Lemma separator_nonempty (bucket : string) : "/" +:+ bucket +:+ "/" <> "".
Proof. discriminate. Qed.

Lemma object_url_parts {geojson} (self : StorageService geojson) (object_name : string) :
  object_url self object_name
    = ("http://" +:+ endpoint self) +:+ ("/" +:+ bucket_name self +:+ "/") +:+ object_name.
Proof. unfold object_url. by rewrite !append_assoc. Qed.

Lemma feature_of_ok {geojson} (d : gmap string (value geojson)) (f : feature geojson) :
  feature_of d = ok f ->
  d = <["geometry" := feature_geometry f]> (feature_properties f) /\
  feature_properties f !! "geometry" = None.
Proof.
  unfold feature_of, Validation.getitem.
  destruct (d !! "geometry") as [g |] eqn:E; [| discriminate].
  cbn [mbind result_bind ok]. intros [= <-]. cbn [feature_geometry feature_properties].
  split; [| apply lookup_delete_eq].
  by rewrite insert_delete_id.
Qed.

(** A small instance: the bucket [detections] at [localhost:9000]. *)
Definition demo_storage : StorageService (list pixel) :=
  {| endpoint := "localhost:9000"; bucket_name := "detections"; objects := ∅;
     client_raises := []; clock := 1000 |}.

Definition demo_bare_detection : gmap string (value (list pixel)) :=
  {[ "confidence_score" := VNum 0.9 ]}.

(** *** Properties of the storage service *)

(** X25.  When [save_geojson] returns a URL, the uploaded collection holds one
    feature per detection, in order; each feature carries the detection's
    geometry, its properties are the detection without the key [geometry],
    and putting the geometry back gives the detection again.  The object is
    stored under [vectors/] followed by the file name and the URL is the one
    of that object. *)
Theorem save_geojson_features {geojson : Type} (self self' : StorageService geojson)
    (detections : list (gmap string (value geojson))) (filename url : string) :
  save_geojson self detections filename = (ok url, self') ->
  exists features,
    objects self' = <["vectors/" +:+ filename :=
                        FeatureCollection features (length detections) (clock self)]>
                      (objects self) /\
    url = object_url self ("vectors/" +:+ filename) /\
    Forall2 (fun d f => d = <["geometry" := feature_geometry f]> (feature_properties f) /\
                        feature_properties f !! "geometry" = None)
            detections features.
Proof.
  unfold save_geojson.
  destruct (Validation.for_each feature_of detections) as [e | features] eqn:E;
    [discriminate |].
  apply Validation.for_each_Forall2 in E.
  unfold put_object, client_call.
  destruct (client_raises self) as [| [|] rest]; intros H; inversion H; subst; clear H;
    exists features; cbn [objects clock with_objects];
    (split; [by rewrite <- (Forall2_length _ _ _ E) |]);
    (split; [reflexivity |]);
    (eapply Forall2_impl; [exact E |]); intros d f Hf; by apply feature_of_ok.
Qed.

Lemma save_geojson_features_witness :
  exists features,
    objects (snd (save_geojson demo_storage [ML.demo_detection] "detections_7.geojson"))
      = <["vectors/" +:+ "detections_7.geojson" :=
            FeatureCollection features (length [ML.demo_detection]) (clock demo_storage)]>
          (objects demo_storage) /\
    "http://localhost:9000/detections/vectors/detections_7.geojson"
      = object_url demo_storage ("vectors/" +:+ "detections_7.geojson") /\
    Forall2 (fun d f => d = <["geometry" := feature_geometry f]> (feature_properties f) /\
                        feature_properties f !! "geometry" = None)
            [ML.demo_detection] features.
Proof.
  apply (save_geojson_features demo_storage
           (snd (save_geojson demo_storage [ML.demo_detection] "detections_7.geojson"))
           [ML.demo_detection] "detections_7.geojson").
  vm_compute. reflexivity.
Defined.

(** X26.  A detection without the key [geometry] makes [save_geojson] raise
    [KeyError] before anything is uploaded: the bucket and the service are
    left as they were. *)
Theorem save_geojson_missing_geometry {geojson : Type} (self : StorageService geojson)
    (detections : list (gmap string (value geojson))) (filename : string) :
  Exists (fun d => d !! "geometry" = None) detections ->
  save_geojson self detections filename = (raise (KeyError "geometry"), self).
Proof.
  intros Hex. unfold save_geojson.
  assert (E : Validation.for_each feature_of detections = raise (KeyError "geometry")).
  { induction Hex as [d l Hd | d l _ IH]; cbn [Validation.for_each].
    - unfold feature_of, Validation.getitem. by rewrite Hd.
    - rewrite IH. unfold feature_of, Validation.getitem.
      by destruct (d !! "geometry"). }
  by rewrite E.
Qed.

Lemma save_geojson_missing_geometry_witness :
  save_geojson demo_storage [ML.demo_detection; demo_bare_detection] "detections_7.geojson"
    = (raise (KeyError "geometry"), demo_storage).
Proof.
  apply (save_geojson_missing_geometry demo_storage
           [ML.demo_detection; demo_bare_detection] "detections_7.geojson").
  right. left. reflexivity.
Defined.

(** X27.  Deleting by the URL that a save returned undoes the save: if the
    client does not fail, the text [/bucket/] first occurs in the URL right
    after the endpoint and does not occur in the object name, then
    [delete_file_from_url] returns true and the bucket is what it was before
    the save, without the object. *)
Theorem delete_undoes_save {geojson : Type} (self : StorageService geojson)
    (file_path object_name : string) :
  client_raises self = [] ->
  find ("/" +:+ bucket_name self +:+ "/") (object_url self object_name)
    = Some (String.length ("http://" +:+ endpoint self)) ->
  find ("/" +:+ bucket_name self +:+ "/") object_name = None ->
  exists self1 self2,
    save_file self file_path object_name = (ok (object_url self object_name), self1) /\
    objects self1 !! object_name = Some (LocalFile file_path) /\
    delete_file_from_url self1 (object_url self object_name) = (true, self2) /\
    objects self2 = delete object_name (objects self).
Proof.
  intros Hc Hfirst Hnone.
  unfold save_file, put_object, client_call. rewrite Hc.
  eexists _, _. split; [reflexivity |]. split.
  { cbn [objects with_objects]. apply lookup_insert_eq. }
  unfold delete_file_from_url. cbn [bucket_name with_objects].
  rewrite object_url_parts in *.
  rewrite (split_url _ _ _ (separator_nonempty _) Hfirst Hnone).
  unfold client_call. cbn [client_raises with_objects]. rewrite Hc.
  split; [reflexivity |]. cbn [objects with_objects].
  apply delete_insert_eq.
Qed.

Lemma delete_undoes_save_witness :
  exists self1 self2,
    save_file demo_storage "/tmp/tmp1.tif" "cogs/change_detection_7.tif"
      = (ok (object_url demo_storage "cogs/change_detection_7.tif"), self1) /\
    objects self1 !! "cogs/change_detection_7.tif" = Some (LocalFile "/tmp/tmp1.tif") /\
    delete_file_from_url self1 (object_url demo_storage "cogs/change_detection_7.tif")
      = (true, self2) /\
    objects self2 = delete "cogs/change_detection_7.tif" (objects demo_storage).
Proof.
  apply (delete_undoes_save demo_storage "/tmp/tmp1.tif" "cogs/change_detection_7.tif").
  - reflexivity.
  - vm_compute. reflexivity.
  - vm_compute. reflexivity.
Defined.

(** X28.  [delete_file_from_url] returns true only for a URL that consists of
    a prefix, the text [/bucket/] and an object name, and it then removes
    exactly that object; whenever it returns false the bucket is unchanged. *)
Theorem delete_file_from_url_outcome {geojson : Type} (self : StorageService geojson)
    (url : string) :
  match delete_file_from_url self url with
  | (true, self') =>
      exists prefix object_name,
        url = prefix +:+ ("/" +:+ bucket_name self +:+ "/") +:+ object_name /\
        objects self' = delete object_name (objects self)
  | (false, self') => objects self' = objects self
  end.
Proof.
  unfold delete_file_from_url.
  pose proof (join_split ("/" +:+ bucket_name self +:+ "/") url (separator_nonempty _)) as Hj.
  destruct (split ("/" +:+ bucket_name self +:+ "/") url) as [| a [| b [| c l]]];
    try reflexivity.
  unfold client_call.
  destruct (client_raises self) as [| [|] rest]; cbn [objects with_objects];
    try reflexivity; exists a, b; by split.
Qed.

End Storage.

Module Endpoints.
Import Jobs.

(** *** The job endpoints and the queue

    An RQ job is known to Redis by its id; the queue service is [None] when
    Redis could not be reached at start-up.  A path parameter [job_id] is the
    text [str job_id] of a row id.  The endpoint awaits the methods of the
    job service with a session, so here they do run. *)

Inductive rq_status : Type := Queued | Canceled.

Record rq_job : Type := RqJob { origin : string; rq_state : rq_status }.

Definition QueueService : Type := option (gmap string rq_job).

Inductive response : Type :=
| Success (message : string)
| HTTPException (status_code : nat) (detail : string).

Section Service.
(** Python's [str] on a row id *)
Variable str : Z -> string.

(** [QueueService.enqueue_change_detection_job] *)
Definition enqueue_change_detection_job (self : QueueService) (job_id : Z)
    (priority : string) : option string * QueueService :=
  match self with
  | None => (None, self)
  | Some registry =>
      let queue := if bool_decide (priority = "high") then "high" else "ml_processing" in
      let queue_job_id := "change_detection_" +:+ str job_id in
      (Some queue_job_id, Some (<[queue_job_id := RqJob queue Queued]> registry))
  end.

(** [QueueService.cancel_job]: [Job.fetch] raises for an unknown id, and the
    exception is turned into [False]. *)
Definition queue_cancel_job (self : QueueService) (queue_job_id : string)
  : bool * QueueService :=
  match self with
  | None => (false, self)
  | Some registry =>
      match registry !! queue_job_id with
      | None => (false, self)
      | Some job =>
          (true, Some (<[queue_job_id := RqJob (origin job) Canceled]> registry))
      end
  end.

(** [DELETE /{job_id}] *)
Definition cancel_job (db : session) (queue_service : QueueService) (job_id : Z)
  : response * session * QueueService :=
  let '(job, db) := get_job db job_id in
  match job with
  | None =>
      (HTTPException 404 ("Job with id " +:+ str job_id +:+ " not found"),
       db, queue_service)
  | Some job =>
      if bool_decide (status (columns job) = COMPLETED)
      then (HTTPException 400 "Cannot cancel completed job", db, queue_service)
      else
        let queue_service :=
          if bool_decide (status (columns job) = PENDING)
          then snd (queue_cancel_job queue_service (str job_id))
          else queue_service in
        let status_update :=
          {| su_status := FAILED; su_progress := None;
             su_error_message := Some "Job cancelled by user";
             su_result_cog_url := None; su_vector_results_url := None |} in
        let '(_, db) := update_job_status db job_id status_update in
        (Success ("Job " +:+ str job_id +:+ " cancelled successfully"),
         db, queue_service)
  end.

End Service.

Definition registry (self : QueueService) : gmap string rq_job := default ∅ self.

(** *** A small instance *)

Definition demo_str (n : Z) : string := pretty n.

Definition demo_queue : QueueService := Some ∅.

(** *** Facts *)

Lemma length_append (a b : string) :
  String.length (a +:+ b) = (String.length a + String.length b)%nat.
Proof.
  induction a as [| c a IH]; [reflexivity |].
  change (String c a +:+ b) with (String c (a +:+ b)). simpl. by rewrite IH.
Qed.

Lemma queue_id_differs (s : string) : "change_detection_" +:+ s <> s.
Proof.
  intros H. apply (f_equal String.length) in H. rewrite length_append in H.
  simpl in H. lia.
Qed.

Lemma queue_cancel_job_frame (self : QueueService) (id other : string) :
  other <> id ->
  registry (snd (queue_cancel_job self id)) !! other = registry self !! other.
Proof.
  intros Hne. unfold queue_cancel_job. destruct self as [reg |]; [| reflexivity].
  destruct (reg !! id); [| reflexivity]. cbn [snd registry default].
  apply lookup_insert_ne. congruence.
Qed.

(** *** Properties of the cancel endpoint *)

(** X29.  [DELETE /{job_id}] never changes a row.  It answers 404 when the
    job is missing or the query for it fails, and 400 when the job is
    COMPLETED; it gives no other error answer.  For every other job it
    reports success although the job is left as it was: the update to FAILED
    raises inside [update_job_status], which answers nothing, and the
    endpoint does not look at that answer. *)
Theorem cancel_job_outcome (str : Z -> string) (db : session)
    (queue_service : QueueService) (job_id : Z) :
  match cancel_job str db queue_service job_id with
  | (answer, db', queue_service') =>
      jobs db' = jobs db /\ committed db' = committed db /\
      match answer with
      | HTTPException status_code detail =>
          queue_service' = queue_service /\
          ((status_code = 404%nat /\
            (jobs db !! job_id = None \/ head (db_raises db) = Some true)) \/
           (status_code = 400%nat /\
            exists r, jobs db !! job_id = Some r /\ status (mapped r) = COMPLETED))
      | Success message =>
          exists r, jobs db !! job_id = Some r /\ status (mapped r) <> COMPLETED
      end
  end.
Proof.
  unfold cancel_job.
  destruct (get_job_cases db job_id) as [[Hj1 Hc1] Hcases].
  destruct (get_job db job_id) as [found db1]; cbn [fst snd] in *.
  destruct Hcases as [[-> Hmiss] | (r & Hr & ->)].
  { split; [exact Hj1 |]. split; [exact Hc1 |]. split; [reflexivity |]. by left. }
  cbn [load columns].
  destruct (bool_decide (status (mapped r) = COMPLETED)) eqn:Hst.
  { apply bool_decide_eq_true in Hst. split; [exact Hj1 |]. split; [exact Hc1 |].
    split; [reflexivity |]. right. split; [reflexivity |]. by exists r. }
  apply bool_decide_eq_false in Hst.
  match goal with |- context [update_job_status db1 job_id ?su] =>
    destruct (update_try_raises job_id su db1) as [[Hj2 Hc2] _]; [discriminate |];
    unfold update_job_status, catch;
    destruct (update_try job_id su db1) as [[e | returned] db2] end;
    cbn [fst snd] in *;
    (split; [congruence |]); (split; [congruence |]); by exists r.
Qed.

(** X30.  A job queued by [enqueue_change_detection_job] is still queued
    after the cancel endpoint has run for it: the job is queued under
    [change_detection_] followed by its id, while the endpoint hands the bare
    id to the queue. *)
Theorem cancel_job_leaves_job_queued (str : Z -> string) (db : session)
    (queue_service queue_service1 : QueueService) (job_id : Z) (priority : string)
    (queue_job_id : string) :
  enqueue_change_detection_job str queue_service job_id priority
    = (Some queue_job_id, queue_service1) ->
  exists queue,
    registry (snd (cancel_job str db queue_service1 job_id)) !! queue_job_id
      = Some (RqJob queue Queued).
Proof.
  unfold enqueue_change_detection_job.
  destruct queue_service as [reg |]; [| discriminate].
  intros [= <- <-]. eexists.
  assert (Hq : forall q : QueueService,
            registry q !! ("change_detection_" +:+ str job_id)
              = Some (RqJob (if bool_decide (priority = "high")
                             then "high" else "ml_processing") Queued) ->
            registry (snd (cancel_job str db q job_id)) !! ("change_detection_" +:+ str job_id)
              = Some (RqJob (if bool_decide (priority = "high")
                             then "high" else "ml_processing") Queued)).
  { intros q Hq. unfold cancel_job.
    destruct (get_job db job_id) as [[job |] db1]; [| exact Hq].
    destruct (bool_decide (status (columns job) = COMPLETED)); [exact Hq |].
    destruct (update_job_status db1 job_id _) as [r db']. cbn [snd].
    destruct (bool_decide (status (columns job) = PENDING)); [| exact Hq].
    rewrite queue_cancel_job_frame; [exact Hq | apply queue_id_differs]. }
  apply Hq. cbn [registry default]. apply lookup_insert_eq.
Qed.

Lemma cancel_job_leaves_job_queued_witness :
  exists queue,
    registry (snd (cancel_job demo_str demo_db
                     (snd (enqueue_change_detection_job demo_str demo_queue 7 "normal")) 7))
      !! "change_detection_7" = Some (RqJob queue Queued).
Proof.
  apply (cancel_job_leaves_job_queued demo_str demo_db demo_queue
           (snd (enqueue_change_detection_job demo_str demo_queue 7 "normal")) 7 "normal"
           "change_detection_7").
  vm_compute. reflexivity.
Defined.

End Endpoints.
